(** * Register.jsx: the registration form's schema, key filters and submit flow

    A shallow embedding of [src/Pages/Register/Register.jsx].

    - [Js]: the JavaScript values and strings the component handles, and the
      three character-class regular expressions it uses.
    - [Zod]: the fragment of zod (v3) the [schema] constant is written in, the
      schema itself, and the resolver that turns zod's issue list into the
      per-field error object of react-hook-form.
    - [Form]: the component: its state, the two key handlers with their
      timers, and the submit flow.
    - [Spec]: the constraint table of the specification, to compare the
      schema with.

    Strings are sequences of UTF-16 code units, as in JavaScript, so that
    [length] is the [.length] the code reads.  Error messages and field names
    are literals of the source and are kept as plain strings. *)

From stdpp Require Import gmap strings list fin_maps.
From Stdlib Require Import NArith ZArith Ascii.

Open Scope string_scope.

(* ===================================================================== *)
(** ** JavaScript values                                                  *)
(* ===================================================================== *)

Module Js.

(** A JavaScript string: its UTF-16 code units. *)
Definition jsstring := list N.

(** An ASCII literal of the source as a JavaScript string. *)
Definition js (s : string) : jsstring := N_of_ascii <$> String.list_ascii_of_string s.

(** The values a form field can hold.  Numbers are the integral ones and an
    object is known by its reference only; neither is a string or [true],
    which is all the schema asks of them. *)
Inductive jsvalue :=
| JUndefined
| JNull
| JBool (b : bool)
| JNumber (n : Z)
| JString (s : jsstring)
| JObject (ref : nat).

#[global] Instance jsvalue_eq_dec : EqDecision jsvalue.
Proof. solve_decision. Defined.

(** [a === b] on these values. *)
Definition strict_eq (a b : jsvalue) : bool := bool_decide (a = b).

(** zod's [getParsedType], as the name it prints in its messages. *)
Definition parsedType (v : jsvalue) : string :=
  match v with
  | JUndefined => "undefined"
  | JNull => "null"
  | JBool _ => "boolean"
  | JNumber _ => "number"
  | JString _ => "string"
  | JObject _ => "object"
  end.

(** Character classes. *)
Definition is_digit (c : N) : bool := ((48 <=? c) && (c <=? 57))%N.
Definition is_upper (c : N) : bool := ((65 <=? c) && (c <=? 90))%N.
Definition is_lower (c : N) : bool := ((97 <=? c) && (c <=? 122))%N.

(** [\s]: ECMAScript WhiteSpace and LineTerminator code points. *)
Definition is_space (c : N) : bool :=
  ((9 <=? c) && (c <=? 13) || (c =? 32) || (c =? 160) || (c =? 5760)
   || (8192 <=? c) && (c <=? 8202) || (c =? 8232) || (c =? 8233)
   || (c =? 8239) || (c =? 8287) || (c =? 12288) || (c =? 65279))%N.

(** The two shapes of regular expression in the source:
    [/^[class]+$/] and [/[class]/], neither with flags. *)
Inductive regex :=
| Whole_plus (class : N → bool)
| Anywhere (class : N → bool).

(** [re.test(s)].  Without the [m] flag [^] and [$] match only at the two
    ends of the input. *)
Definition test (re : regex) (s : jsstring) : bool :=
  match re with
  | Whole_plus class => negb (bool_decide (s = [])) && forallb class s
  | Anywhere class => existsb class s
  end.

(** [/^[A-Za-z\s]+$/] *)
Definition re_letters : regex :=
  Whole_plus (λ c, is_upper c || is_lower c || is_space c).
(** [/^\d+$/] *)
Definition re_digits : regex := Whole_plus is_digit.
(** [/[0-9]/] *)
Definition re_has_digit : regex := Anywhere is_digit.

End Js.

(* ===================================================================== *)
(** ** The zod schema and its resolver                                    *)
(* ===================================================================== *)

Module Zod.
Import Js.

(** The checks chained on [z.string()] in the source. *)
Inductive check :=
| Min (value : nat) (message : string)
| Max (value : nat) (message : string)
| Regex (re : regex) (message : string)
| Email (message : string).

(** The schema types the source builds. *)
Inductive ztype :=
| ZString (checks : list check)
| ZOptional (innerType : ztype)
| ZLiteral (value : jsvalue) (errorMap : string).

(** [z.string()] and the chaining methods, so that the schema below reads
    as the source does. *)
Definition z_string : ztype := ZString [].
Definition add_check (c : check) (t : ztype) : ztype :=
  match t with
  | ZString cs => ZString (cs ++ [c])
  | _ => t
  end.
Definition min (n : nat) (m : string) : ztype → ztype := add_check (Min n m).
Definition max (n : nat) (m : string) : ztype → ztype := add_check (Max n m).
Definition regex (re : Js.regex) (m : string) : ztype → ztype :=
  add_check (Regex re m).
Definition email (m : string) : ztype → ztype := add_check (Email m).
Definition optional : ztype → ztype := ZOptional.
Definition z_literal (v : jsvalue) (errorMap : string) : ztype :=
  ZLiteral v errorMap.

Notation "t .> f" := (f t) (at level 45, left associativity, only parsing).

(** [const schema = z.object({ ... })], lines 8-44, in key order. *)
Definition schema : list (string * ztype) :=
  [ ("title", z_string .> min 1 "Title is required");
    ("firstName",
      z_string
      .> min 1 "First name is required"
      .> regex re_letters "Only letters are allowed");
    ("lastName",
      z_string
      .> min 1 "Last name is required"
      .> regex re_letters "Only letters are allowed");
    ("position", z_string .> min 1 "Position is required");
    ("company", z_string .> min 1 "Company is required");
    ("businessArena", z_string .> min 1 "Business Arena is required");
    ("employees", z_string .> min 1 "Number of employees is required");
    ("street", z_string .> min 1 "Street is required");
    ("additionalInfo", z_string .> optional);
    ("zipCode",
      z_string
      .> min 1 "Zip code is required"
      .> regex re_digits "Only numbers are allowed");
    ("place", z_string .> min 1 "Place is required");
    ("country", z_string .> min 1 "Country is required");
    ("code",
      z_string
      .> min 1 "Code is required"
      .> regex re_digits "Only numbers are allowed");
    ("phoneNumber",
      z_string
      .> min 1 "Phone number is required"
      .> regex re_digits "Only numbers are allowed"
      .> min 10 "Phone number must be at least 10 digits"
      .> max 15 "Phone number must not exceed 15 digits");
    ("email",
      z_string .> min 1 "Email is required" .> email "Invalid email format");
    ("acceptTerms", z_literal (JBool true) "You must accept the terms") ].

(** The keys of the schema: the fields of the record. *)
Definition fields : list string := schema.*1.

Section Parse.

(** zod's own e-mail pattern is not part of this repository and differs
    between zod releases; it is left open. *)
Variable emailRegex : jsstring → bool.

(** One check of [ZodString._parse]: the message of the issue it adds,
    if it adds one. *)
Definition run_check (c : check) (s : jsstring) : option string :=
  match c with
  | Min n m => if bool_decide (length s < n) then Some m else None
  | Max n m => if bool_decide (n < length s) then Some m else None
  | Regex re m => if test re s then None else Some m
  | Email m => if emailRegex s then None else Some m
  end.

(** zod's default message for an [invalid_type] issue. *)
Definition invalid_type (expected : string) (v : jsvalue) : string :=
  match v with
  | JUndefined => "Required"
  | _ => "Expected " +:+ expected +:+ ", received " +:+ parsedType v
  end.

(** [_parse] of the three schema types: the messages of the issues it
    adds, in the order it adds them.  A string runs every check of its
    chain, a failed one does not stop the later ones. *)
Fixpoint parse (t : ztype) (v : jsvalue) : list string :=
  match t with
  | ZString checks =>
      match v with
      | JString s => omap (λ c, run_check c s) checks
      | _ => [invalid_type "string" v]
      end
  | ZOptional inner =>
      match v with
      | JUndefined => []
      | _ => parse inner v
      end
  | ZLiteral lit errorMap =>
      if strict_eq v lit then [] else [errorMap]
  end.

(** [data[key]]: a missing key reads as [undefined]. *)
Definition get (data : gmap string jsvalue) (key : string) : jsvalue :=
  default JUndefined (data !! key).

(** [ZodObject._parse]: every key of the shape is parsed, in shape
    order; each issue carries its key as path.  Keys of [data] outside
    the shape are stripped without an issue. *)
Definition parse_object (shape : list (string * ztype))
    (data : gmap string jsvalue) : list (string * string) :=
  flat_map (λ kt, pair kt.1 <$> parse kt.2 (get data kt.1)) shape.

(** [parseErrorSchema] of [@hookform/resolvers/zod] in its default
    [firstError] mode: an issue is recorded only when its path has no
    entry yet. *)
Definition parseErrorSchema (issues : list (string * string))
    : gmap string string :=
  foldl (λ errors i,
           match errors !! i.1 with
           | Some _ => errors
           | None => <[i.1 := i.2]> errors
           end) ∅ issues.

(** [zodResolver(schema)]: the [errors] object handed to the form. *)
Definition resolver (data : gmap string jsvalue) : gmap string string :=
  parseErrorSchema (parse_object schema data).

(** [shape[key]]: the type a shape declares for a key. *)
Fixpoint shape_lookup (key : string) (shape : list (string * ztype))
    : option ztype :=
  match shape with
  | [] => None
  | kt :: shape' =>
      if decide (kt.1 = key) then Some kt.2 else shape_lookup key shape'
  end.

Definition shape_of (key : string) : option ztype := shape_lookup key schema.

(** The message shown beside one field: the first issue of its type on
    its value, if there is one. *)
Definition field_error (key : string) (v : jsvalue) : option string :=
  t ← shape_of key; head (parse t v).

End Parse.

End Zod.


(* ===================================================================== *)
(** ** The Register component                                             *)
(* ===================================================================== *)

Module Form.
Import Js Zod.

(** The options object of a [Swal.fire] call. *)
Record Dialog := {
  title : string;
  text : string;
  icon : string;
  confirmButtonText : string;
  confirmButtonColor : string
}.

#[global] Instance Dialog_eq_dec : EqDecision Dialog.
Proof. solve_decision. Defined.

(** The two arrow functions the source hands to [setTimeout]. *)
Inductive callback :=
| ClearNameError (fieldName : string)
| ClearNumericError (fieldName : string).

#[global] Instance callback_eq_dec : EqDecision callback.
Proof. solve_decision. Defined.

(** A pending timer: the time it fires at, in ms, and what it runs. *)
Record timer := { due : N; run : callback }.

(** What the submit flow does to the outside, in order. *)
Inductive effect :=
| Timeout (ms : N)
| Swal (d : Dialog).

(** The state of one mounted component: the record and the errors held by
    [useForm], the two [useState] objects, the timers not yet fired, the time
    and the effects so far. *)
Record Component := {
  values : gmap string jsvalue;
  errors : gmap string string;
  nameErrors : gmap string string;
  numericErrors : gmap string string;
  timers : list timer;
  clock : N;
  log : list effect
}.

(** [defaultValues], lines 65-82. *)
Definition defaultValues : gmap string jsvalue :=
  list_to_map
    [ ("title", JString (js ""));
      ("firstName", JString (js ""));
      ("lastName", JString (js ""));
      ("position", JString (js ""));
      ("company", JString (js ""));
      ("businessArena", JString (js ""));
      ("employees", JString (js ""));
      ("street", JString (js ""));
      ("additionalInfo", JString (js ""));
      ("zipCode", JString (js ""));
      ("place", JString (js ""));
      ("country", JString (js ""));
      ("code", JString (js ""));
      ("phoneNumber", JString (js ""));
      ("email", JString (js ""));
      ("acceptTerms", JBool false) ].

(** The component as mounted, lines 47-83. *)
Definition mount : Component :=
  {| values := defaultValues;
     errors := ∅;
     nameErrors := list_to_map [("firstName", ""); ("lastName", "")];
     numericErrors := list_to_map [("zipCode", ""); ("code", ""); ("phoneNumber", "")];
     timers := [];
     clock := 0;
     log := [] |}.

(** *** State updates *)

(** [setNameErrors(f)] and [setNumericErrors(f)] with an updater function. *)
Definition setNameErrors (f : gmap string string → gmap string string)
    (c : Component) : Component :=
  {| values := values c; errors := errors c;
     nameErrors := f (nameErrors c); numericErrors := numericErrors c;
     timers := timers c; clock := clock c; log := log c |}.

Definition setNumericErrors (f : gmap string string → gmap string string)
    (c : Component) : Component :=
  {| values := values c; errors := errors c;
     nameErrors := nameErrors c; numericErrors := f (numericErrors c);
     timers := timers c; clock := clock c; log := log c |}.

Definition set_values (v : gmap string jsvalue) (c : Component) : Component :=
  {| values := v; errors := errors c;
     nameErrors := nameErrors c; numericErrors := numericErrors c;
     timers := timers c; clock := clock c; log := log c |}.

Definition set_errors (e : gmap string string) (c : Component) : Component :=
  {| values := values c; errors := e;
     nameErrors := nameErrors c; numericErrors := numericErrors c;
     timers := timers c; clock := clock c; log := log c |}.

Definition set_timers (q : list timer) (c : Component) : Component :=
  {| values := values c; errors := errors c;
     nameErrors := nameErrors c; numericErrors := numericErrors c;
     timers := q; clock := clock c; log := log c |}.

Definition set_clock (t : N) (c : Component) : Component :=
  {| values := values c; errors := errors c;
     nameErrors := nameErrors c; numericErrors := numericErrors c;
     timers := timers c; clock := t; log := log c |}.

Definition emit (x : effect) (c : Component) : Component :=
  {| values := values c; errors := errors c;
     nameErrors := nameErrors c; numericErrors := numericErrors c;
     timers := timers c; clock := clock c; log := (log c ++ [x])%list |}.

(** *** Timers *)

(** A new timer goes behind every pending one that is due no later, so the
    queue stays in firing order. *)
Fixpoint enqueue (t : timer) (q : list timer) : list timer :=
  match q with
  | [] => [t]
  | u :: q' => if (due t <? due u)%N then t :: q else u :: enqueue t q'
  end.

(** [setTimeout(callback, delay)] *)
Definition setTimeout (cb : callback) (delay : N) (c : Component) : Component :=
  set_timers (enqueue {| due := clock c + delay; run := cb |} (timers c)) c.

(** The bodies of the two timer callbacks, lines 94-97, 116-119 and 134-137. *)
Definition run_callback (cb : callback) (c : Component) : Component :=
  match cb with
  | ClearNameError fieldName =>
      setNameErrors (λ prev, <[fieldName := ""]> prev) c
  | ClearNumericError fieldName =>
      setNumericErrors (λ prev, <[fieldName := ""]> prev) c
  end.

(** [ms] milliseconds pass: every timer due by then fires, in queue order,
    each exactly at its due time (a browser may fire one late, never early;
    the delay is taken as met exactly). *)
Definition advance (ms : N) (c : Component) : Component :=
  let now := (clock c + ms)%N in
  let ready := filter (λ t, (due t ≤ now)%N) (timers c) in
  let waiting := filter (λ t, ¬ (due t ≤ now)%N) (timers c) in
  foldl (λ c t, run_callback (run t) c) (set_clock now (set_timers waiting c)) ready.

(** *** Key handlers *)

(** The part of a keyboard event the handlers read and write. *)
Record KeyboardEvent := {
  key : jsstring;
  target_value : jsstring;
  defaultPrevented : bool
}.

(** [e.preventDefault()] *)
Definition preventDefault (e : KeyboardEvent) : KeyboardEvent :=
  {| key := key e; target_value := target_value e; defaultPrevented := true |}.

(** [handleNameInput], lines 85-100. *)
Definition handleNameInput (e : KeyboardEvent) (fieldName : string)
    (c : Component) : KeyboardEvent * Component :=
  if test re_has_digit (key e) then
    let e := preventDefault e in
    let c := setNameErrors
               (λ prev, <[fieldName := "Numbers are not allowed in this field"]> prev) c in
    let c := setTimeout (ClearNameError fieldName) 2000 c in
    (e, c)
  else (e, c).

(** [handleNumericInput], lines 102-140.  [e.key.match(/[0-9]/)] is truthy
    exactly when the pattern is found. *)
Definition handleNumericInput (e : KeyboardEvent) (fieldName : string)
    (c : Component) : KeyboardEvent * Component :=
  if negb (test re_has_digit (key e))
     && negb (bool_decide (key e = js "Backspace"))
     && negb (bool_decide (key e = js "Delete"))
     && negb (bool_decide (key e = js "Tab"))
  then
    let e := preventDefault e in
    let c := setNumericErrors
               (λ prev, <[fieldName := "Only numbers are allowed in this field"]> prev) c in
    let c := setTimeout (ClearNumericError fieldName) 2000 c in
    (e, c)
  else
    let currentValue := target_value e in
    if test re_has_digit (key e) && bool_decide (10 ≤ length currentValue)%nat then
      let e := preventDefault e in
      let c := setNumericErrors
                 (λ prev, <[fieldName := "Maximum 10 digits allowed"]> prev) c in
      let c := setTimeout (ClearNumericError fieldName) 2000 c in
      (e, c)
    else (e, c).

(** The [onKeyPress] and [onKeyDown] props of the inputs, lines 202, 215,
    299, 339 and 352; the other inputs have neither. *)
Definition onKeyPress (field : string) (e : KeyboardEvent) (c : Component)
    : KeyboardEvent * Component :=
  if bool_decide (field = "firstName") then handleNameInput e "firstName" c
  else if bool_decide (field = "lastName") then handleNameInput e "lastName" c
  else (e, c).

Definition onKeyDown (field : string) (e : KeyboardEvent) (c : Component)
    : KeyboardEvent * Component :=
  if bool_decide (field = "zipCode") then handleNumericInput e "zipCode" c
  else if bool_decide (field = "code") then handleNumericInput e "code" c
  else if bool_decide (field = "phoneNumber") then handleNumericInput e "phoneNumber" c
  else (e, c).

(** The two classes of filtered inputs. *)
Definition name_fields : list string := ["firstName"; "lastName"].
Definition numeric_fields : list string := ["zipCode"; "code"; "phoneNumber"].

(** A digit keystroke: the key is one of the characters 0 to 9. *)
Definition is_digit_key (k : jsstring) : bool :=
  match k with
  | [d] => is_digit d
  | _ => false
  end.

(** *** The two transient-error mappings, side by side *)

Inductive mapping := NameErrors | NumericErrors.

(** The state object of a mapping. *)
Definition transient (m : mapping) (c : Component) : gmap string string :=
  match m with
  | NameErrors => nameErrors c
  | NumericErrors => numericErrors c
  end.

(** The handler that writes to a mapping. *)
Definition handle (m : mapping) (e : KeyboardEvent) (fieldName : string)
    (c : Component) : KeyboardEvent * Component :=
  match m with
  | NameErrors => handleNameInput e fieldName c
  | NumericErrors => handleNumericInput e fieldName c
  end.

(** The callback that clears a field of a mapping. *)
Definition clear_of (m : mapping) (fieldName : string) : callback :=
  match m with
  | NameErrors => ClearNameError fieldName
  | NumericErrors => ClearNumericError fieldName
  end.

(** The setter of a mapping. *)
Definition set_transient (m : mapping)
    (f : gmap string string → gmap string string) (c : Component)
    : Component :=
  match m with
  | NameErrors => setNameErrors f c
  | NumericErrors => setNumericErrors f c
  end.

(** What each of the three rejecting branches does to the component: the
    message goes into the field's entry, and a timer to clear that entry is
    set for 2000 ms later. *)
Definition reject (m : mapping) (fieldName message : string)
    (c : Component) : Component :=
  setTimeout (clear_of m fieldName) 2000
    (set_transient m (λ prev, <[fieldName := message]> prev) c).

(** Whether the handler of [m] rejects the keystroke: the event comes back
    with its default action prevented. *)
Definition rejected (m : mapping) (e : KeyboardEvent) (fieldName : string)
    (c : Component) : bool :=
  defaultPrevented (handle m e fieldName c).1.

(** A burst of further keystrokes on one field, each after a pause; and
    the time the burst takes. *)
Fixpoint burst (m : mapping) (fieldName : string)
    (more : list (N * KeyboardEvent)) (c : Component) : Component :=
  match more with
  | [] => c
  | ge :: more' =>
      burst m fieldName more' (handle m ge.2 fieldName (advance ge.1 c)).2
  end.

Definition span (more : list (N * KeyboardEvent)) : N :=
  foldr (λ ge total, (ge.1 + total)%N) 0%N more.

(** The timers the rejections of a chain set, the chain entered at time
    [t]: one for each rejection, due 2000 ms after it. *)
Fixpoint countdowns (m : mapping) (fieldName : string) (t : N)
    (chain : list (N * KeyboardEvent)) : list timer :=
  match chain with
  | [] => []
  | ge :: chain' =>
      {| due := t + ge.1 + 2000; run := clear_of m fieldName |}
      :: countdowns m fieldName (t + ge.1) chain'
  end.

(** Whether a pending timer clears [fieldName] in [m] by the time [now]. *)
Definition clears_by (m : mapping) (fieldName : string) (now : N)
    (t : timer) : bool :=
  bool_decide (due t ≤ now)%N && bool_decide (run t = clear_of m fieldName).

(** *** Typing into a text input *)

(** The text an input holds for the record: what [register(field)] reads. *)
Definition value_of (field : string) (c : Component) : jsstring :=
  match values c !! field with
  | Some (JString s) => s
  | _ => []
  end.

(** A [keypress] event is sent for the keys that produce a character; its
    [key] is that character, or ["Enter"], which a one-line input does not
    insert. *)
Definition typed_text (key : jsstring) : jsstring :=
  if bool_decide (key = js "Enter") then [] else key.

(** The browser's default action for a key press that was not prevented:
    the text goes in at the caret, and the change reaches the record. *)
Definition insert_text (value : jsstring) (caret : nat) (text : jsstring)
    : jsstring :=
  (take caret value ++ text ++ drop caret value)%list.

(** One key press in the input of [field], with the caret at [caret]. *)
Definition keypress (field : string) (k : jsstring) (caret : nat)
    (c : Component) : Component :=
  let e := {| key := k; target_value := value_of field c;
              defaultPrevented := false |} in
  let '(e, c) := onKeyPress field e c in
  if defaultPrevented e then c
  else set_values
         (<[field := JString (insert_text (target_value e) caret (typed_text k))]>
            (values c)) c.

(** What a user does at the keyboard, and time passing in between. *)
Inductive action :=
| Press (field : string) (k : jsstring) (caret : nat)
| Wait (ms : N).

Definition step (c : Component) (a : action) : Component :=
  match a with
  | Press field k caret => keypress field k caret c
  | Wait ms => advance ms c
  end.

Definition run_actions (l : list action) (c : Component) : Component :=
  foldl step c l.

(** *** Submitting *)

(** An [async] function body: it runs on the component and either returns
    or throws; [await] is sequencing. *)
Inductive outcome (A : Type) :=
| Return (a : A)
| Throw (error : string).
Arguments Return {A} a.
Arguments Throw {A} error.

Definition M (A : Type) : Type := Component → outcome A * Component.

#[global] Instance M_ret : MRet M := λ A a c, (Return a, c).
#[global] Instance M_bind : MBind M := λ A B f m c,
  match m c with
  | (Return a, c') => f a c'
  | (Throw error, c') => (Throw error, c')
  end.

(** [throw error] *)
Definition throw {A} (error : string) : M A := λ c, (Throw error, c).

(** [try { body } catch (error) { handler }] *)
Definition try_catch {A} (body : M A) (handler : string → M A) : M A := λ c,
  match body c with
  | (Throw error, c') => handler error c'
  | r => r
  end.

(** [new Promise((resolve) => setTimeout(resolve, ms))], awaited: the
    function resumes [ms] later, after the timers that were due meanwhile.
    It never rejects. *)
Definition timeout (ms : N) : M unit := λ c,
  (Return tt, emit (Timeout ms) (advance ms c)).

(** [Swal.fire(options)], awaited or not: the dialog is shown. *)
Definition Swal_fire (d : Dialog) : M unit := λ c, (Return tt, emit (Swal d) c).

(** [reset()] of [useForm]: the record goes back to [defaultValues] and the
    field errors are dropped. *)
Definition reset : M unit := λ c,
  (Return tt, set_errors ∅ (set_values defaultValues c)).

(** The three dialogs, lines 145-151, 155-161 and 166-172. *)
Definition success_dialog : Dialog :=
  {| title := "Success!";
     text := "Registration completed successfully";
     icon := "success";
     confirmButtonText := "OK";
     confirmButtonColor := "#4CAF50" |}.

Definition error_dialog : Dialog :=
  {| title := "Error!";
     text := "Something went wrong. Please try again.";
     icon := "error";
     confirmButtonText := "OK";
     confirmButtonColor := "#f44336" |}.

Definition warning_dialog : Dialog :=
  {| title := "Validation Error";
     text := "Please check all required fields";
     icon := "warning";
     confirmButtonText := "OK";
     confirmButtonColor := "#ff9800" |}.

(** [onSubmit], lines 141-163, with the operation it awaits first left
    open, so that the [catch] branch can be exercised. *)
Definition onSubmit_awaiting (operation : M unit)
    (data : gmap string jsvalue) : M unit :=
  try_catch
    (operation ;;
     Swal_fire success_dialog ;;
     reset)
    (λ error, Swal_fire error_dialog).

(** [onSubmit] as the source has it: the operation is the 1000 ms timeout. *)
Definition onSubmit (data : gmap string jsvalue) : M unit :=
  onSubmit_awaiting (timeout 1000) data.

(** [onError], lines 165-173. *)
Definition onError (errors : gmap string string) : M unit :=
  Swal_fire warning_dialog.

Section Submit.

Variable emailRegex : jsstring → bool.

(** [handleSubmit(onValid, onInvalid)] of [useForm] with the zod resolver:
    the resolver's errors become the form's errors, and the one or the
    other callback is called according to whether there are any. *)
Definition handleSubmit (onValid : gmap string jsvalue → M unit)
    (onInvalid : gmap string string → M unit) : M unit := λ c,
  let errors := resolver emailRegex (values c) in
  let c := set_errors errors c in
  if bool_decide (errors = ∅) then onValid (values c) c
  else onInvalid errors c.

(** The [onSubmit] prop of the form, line 179. *)
Definition submit : M unit := handleSubmit onSubmit onError.

(** Whether a record would be handed to [onSubmit]. *)
Definition submittable (data : gmap string jsvalue) : bool :=
  bool_decide (resolver emailRegex data = ∅).

End Submit.

End Form.

(* ===================================================================== *)
(** ** The record's constraints as the specification tables them          *)
(* ===================================================================== *)

Module Spec.
Import Js Zod Form.

Section Constraints.

(** "valid email syntax" is whatever zod's pattern accepts. *)
Variable valid_email : jsstring → bool.

(** A text value that is there and not empty, and satisfies [also]. *)
Definition non_empty (also : jsstring → bool) (v : jsvalue) : bool :=
  match v with
  | JString s => negb (bool_decide (s = [])) && also s
  | _ => false
  end.

Definition anything (s : jsstring) : bool := true.
Definition letters_and_whitespace_only (s : jsstring) : bool :=
  forallb (λ c, is_upper c || is_lower c || is_space c) s.
Definition digits_only (s : jsstring) : bool := forallb is_digit s.
Definition length_in (lo hi : nat) (s : jsstring) : bool :=
  bool_decide (lo ≤ length s ≤ hi)%nat.

(** A text value that may be missing. *)
Definition optional_text (v : jsvalue) : bool :=
  match v with
  | JUndefined | JString _ => true
  | _ => false
  end.

Definition equals_true (v : jsvalue) : bool := bool_decide (v = JBool true).

(** The Constraint column of the Registration Record table, row by row. *)
Definition constraints : list (string * (jsvalue → bool)) :=
  [ ("title", non_empty anything);
    ("firstName", non_empty letters_and_whitespace_only);
    ("lastName", non_empty letters_and_whitespace_only);
    ("position", non_empty anything);
    ("company", non_empty anything);
    ("businessArena", non_empty anything);
    ("employees", non_empty anything);
    ("street", non_empty anything);
    ("additionalInfo", optional_text);
    ("zipCode", non_empty digits_only);
    ("place", non_empty anything);
    ("country", non_empty anything);
    ("code", non_empty digits_only);
    ("phoneNumber", non_empty (λ s, digits_only s && length_in 10 15 s));
    ("email", non_empty valid_email);
    ("acceptTerms", equals_true) ].

(** Whether a value passes the constraint of its field; a key that is not a
    field has none. *)
Fixpoint passes_in (table : list (string * (jsvalue → bool)))
    (field : string) (v : jsvalue) : bool :=
  match table with
  | [] => true
  | row :: table' =>
      if decide (row.1 = field) then row.2 v else passes_in table' field v
  end.

Definition passes (field : string) (v : jsvalue) : bool :=
  passes_in constraints field v.

End Constraints.

(** The restart of the countdown, as the specification words it: of two
    rejections on one field less than 2000 ms apart, the second keeps the
    field's transient error set for the whole 2000 ms that follow it. *)
Definition countdown_restarts : Prop :=
  ∀ (m : mapping) (fieldName : string) (e1 e2 : KeyboardEvent)
    (c : Component) (gap rest : N),
    defaultPrevented e1 = false → defaultPrevented e2 = false →
    rejected m e1 fieldName c = true →
    rejected m e2 fieldName (advance gap (handle m e1 fieldName c).2) = true →
    (gap < 2000)%N → (rest < 2000)%N →
    ∃ message, message ≠ "" ∧
      transient m
        (advance rest
           (handle m e2 fieldName
              (advance gap (handle m e1 fieldName c).2)).2) !! fieldName
      = Some message.

(** A stand-in for zod's e-mail pattern when an example has to run: the
    text holds an at sign. *)
Definition sample_emailRegex (s : jsstring) : bool := existsb (N.eqb 64) s.

(** The sample data of end-to-end scenario 1. *)
Definition sample_record : gmap string jsvalue :=
  list_to_map
    [ ("title", JString (js "mr"));
      ("firstName", JString (js "John"));
      ("lastName", JString (js "Doe"));
      ("position", JString (js "developer"));
      ("company", JString (js "Acme"));
      ("businessArena", JString (js "Tech"));
      ("employees", JString (js "1-10"));
      ("street", JString (js "1 Main St"));
      ("zipCode", JString (js "12345"));
      ("place", JString (js "colombo"));
      ("country", JString (js "us"));
      ("code", JString (js "94"));
      ("phoneNumber", JString (js "0771234567"));
      ("email", JString (js "john@acme.com"));
      ("acceptTerms", JBool true) ].

End Spec.

(* ===================================================================== *)
(** ** What the component renders                                         *)
(* ===================================================================== *)

Module Render.
Import Js Zod Form.

(** The [option] values of the five [select] inputs, lines 185-190,
    226-232, 259-263, 308-313 and 321-327; the first of each is the
    placeholder. *)
Definition select_options : list (string * list jsstring) :=
  [ ("title", [js ""; js "mr"; js "mrs"; js "ms"]);
    ("position",
      [js ""; js "manager"; js "developer"; js "tech-lead"; js "designer"]);
    ("employees", [js ""; js "1-10"; js "11-50"]);
    ("place", [js ""; js "matara"; js "colombo"; js "galle"]);
    ("country", [js ""; js "us"; js "in"; js "nl"; js "ae"]) ].

(** How the error span of a field is written: from [errors] alone, or with
    the field's entry of one of the two transient mappings in front. *)
Inductive span_kind := Plain | WithNameErrors | WithNumericErrors.

(** The error spans of the form, in the order of the JSX, lines 191-385.
    The additionalInfo input has none. *)
Definition spans : list (string * span_kind) :=
  [ ("title", Plain);
    ("firstName", WithNameErrors);
    ("lastName", WithNameErrors);
    ("position", Plain);
    ("company", Plain);
    ("businessArena", Plain);
    ("employees", Plain);
    ("street", Plain);
    ("zipCode", WithNumericErrors);
    ("place", Plain);
    ("country", Plain);
    ("code", WithNumericErrors);
    ("phoneNumber", WithNumericErrors);
    ("email", Plain);
    ("acceptTerms", Plain) ].

Fixpoint span_kind_of (field : string) (table : list (string * span_kind))
    : option span_kind :=
  match table with
  | [] => None
  | row :: table' =>
      if decide (row.1 = field) then Some row.2 else span_kind_of field table'
  end.

(** Whether a message that may be missing is truthy: it is there and not
    the empty string. *)
Definition truthy (s : option string) : bool :=
  match s with
  | Some s => negb (bool_decide (s = ""))
  | None => false
  end.

(** [(errors.f || transient.f) && <span>{transient.f || errors.f?.message}</span>]:
    the text of the span, if it is rendered.  An entry of [errors] is an
    object and so truthy whatever its message. *)
Definition filtered_span (transient validation : option string)
    : option string :=
  if truthy transient then transient else validation.

(** The text of the error span beside a field, if one is rendered. *)
Definition error_span (field : string) (c : Component) : option string :=
  match span_kind_of field spans with
  | Some Plain => errors c !! field
  | Some WithNameErrors =>
      filtered_span (nameErrors c !! field) (errors c !! field)
  | Some WithNumericErrors =>
      filtered_span (numericErrors c !! field) (errors c !! field)
  | None => None
  end.

End Render.

(* ===================================================================== *)
(** ** A session with the form                                            *)
(* ===================================================================== *)

Module Session.
Import Js Zod Form.

(** What can happen to the mounted component: a key event reaches one of
    the two handler props of an input, an input changes and [register]
    stores its value, time passes, or the form is submitted. *)
Inductive event :=
| KeyPressed (field : string) (e : KeyboardEvent)
| KeyDowned (field : string) (e : KeyboardEvent)
| Changed (field : string) (v : jsvalue)
| Elapsed (ms : N)
| Submitted.

(** A key as the keyboard produces it: one that types text, or a named
    one. *)
Inductive pressed :=
| Char (text : jsstring)
| Named (name : jsstring).

(** [e.key] *)
Definition key_of (p : pressed) : jsstring :=
  match p with
  | Char text => text
  | Named name => name
  end.

(** A [keypress] event follows the [keydown] for the keys that type text,
    and for Enter. *)
Definition fires_keypress (p : pressed) : bool :=
  match p with
  | Char _ => true
  | Named name => bool_decide (name = js "Enter")
  end.

(** The browser's default action in a text input, with the caret at
    [caret] and nothing selected. *)
Definition default_edit (p : pressed) (value : jsstring) (caret : nat)
    : jsstring :=
  match p with
  | Char text => insert_text value caret text
  | Named name =>
      if bool_decide (name = js "Backspace")
      then (take (caret - 1) value ++ drop caret value)%list
      else if bool_decide (name = js "Delete")
      then (take caret value ++ drop (S caret) value)%list
      else value
  end.

(** One stroke of a key in the input of [field]: the [keydown] handler, the
    [keypress] handler unless the key was prevented or sends none, and the
    default action unless prevented, whose result [register] stores. *)
Definition keystroke (field : string) (p : pressed) (caret : nat)
    (c : Component) : Component :=
  let e := {| key := key_of p; target_value := value_of field c;
              defaultPrevented := false |} in
  let '(e1, c1) := onKeyDown field e c in
  if defaultPrevented e1 then c1
  else
    let '(e2, c2) :=
      if fires_keypress p then onKeyPress field e1 c1 else (e1, c1) in
    if defaultPrevented e2 then c2
    else set_values
           (<[field := JString (default_edit p (value_of field c) caret)]>
              (values c2)) c2.

(** Typing: strokes of keys, each in some input at some caret. *)
Definition type_keys (strokes : list (string * pressed * nat))
    (c : Component) : Component :=
  foldl (λ c s, keystroke s.1.1 s.1.2 s.2 c) c strokes.

(** The three transient messages the handlers set. *)
Definition name_messages : list string :=
  [""; "Numbers are not allowed in this field"].
Definition numeric_messages : list string :=
  [""; "Only numbers are allowed in this field"; "Maximum 10 digits allowed"].

Section Run.

Variable emailRegex : jsstring → bool.

(** The component after one event. *)
Definition handle_event (c : Component) (ev : event) : Component :=
  match ev with
  | KeyPressed field e => (onKeyPress field e c).2
  | KeyDowned field e => (onKeyDown field e c).2
  | Changed field v => set_values (<[field := v]> (values c)) c
  | Elapsed ms => advance ms c
  | Submitted => (submit emailRegex c).2
  end.

(** The component after a list of events, from the mount on. *)
Definition session (events : list event) : Component :=
  foldl handle_event mount events.

End Run.

#[global] Instance mapping_eq_dec : EqDecision mapping.
Proof. solve_decision. Defined.

(** The inputs whose handler writes to a mapping, and the messages it
    writes there. *)
Definition fields_of (m : mapping) : list string :=
  match m with
  | NameErrors => name_fields
  | NumericErrors => numeric_fields
  end.

Definition messages_of (m : mapping) : list string :=
  match m with
  | NameErrors => name_messages
  | NumericErrors => numeric_messages
  end.

(** The state a session keeps the component in: every pending timer is due
    within the next 2000 ms and clears a field that its mapping has, both
    mappings keep the keys they were mounted with and hold the handlers'
    messages only, and a message that is set has a timer pending to clear
    it. *)
Record settled_within_2000 (c : Component) : Prop := {
  timers_due : ∀ t, t ∈ timers c → (clock c < due t ≤ clock c + 2000)%N;
  timers_wired : ∀ t m f,
    t ∈ timers c → run t = clear_of m f → f ∈ fields_of m;
  mapping_keys : ∀ m, dom (transient m c) = list_to_set (fields_of m);
  mapping_values : ∀ m f s,
    transient m c !! f = Some s → s ∈ messages_of m;
  message_has_timer : ∀ m f s,
    transient m c !! f = Some s → s ≠ "" →
    ∃ t, t ∈ timers c ∧ run t = clear_of m f
}.

End Session.

(* ===================================================================== *)
(** * Properties                                                          *)
(* ===================================================================== *)

Import Js Zod Form Spec Render Session.

(** ** The validator *)

Section Validator.

Variable emailRegex : jsstring → bool.

(** The resolver keeps, per path, the first issue of the list. *)
Lemma parseErrorSchema_acc (issues : list (string * string))
    (acc : gmap string string) (k : string) :
  foldl (λ errors i,
           match errors !! i.1 with
           | Some _ => errors
           | None => <[i.1 := i.2]> errors
           end) acc issues !! k
  = match acc !! k with
    | Some m => Some m
    | None => head (filter (λ i, i.1 = k) issues).*2
    end.
Proof.
  revert acc. induction issues as [|[p m] issues IH]; intros acc; simpl.
  - by destruct (acc !! k).
  - rewrite IH. destruct (acc !! p) as [m'|] eqn:Hp.
    + rewrite filter_cons. simpl. case_decide; subst; [by rewrite Hp|done].
    + rewrite filter_cons. simpl. case_decide; subst.
      * by rewrite lookup_insert_eq, Hp.
      * by rewrite lookup_insert_ne.
Qed.

Lemma parseErrorSchema_lookup (issues : list (string * string)) (k : string) :
  parseErrorSchema issues !! k = head (filter (λ i, i.1 = k) issues).*2.
Proof. unfold parseErrorSchema. by rewrite parseErrorSchema_acc, lookup_empty. Qed.

Lemma filter_issues_of_key (k k' : string) (msgs : list string) :
  filter (λ i : string * string, i.1 = k) (pair k' <$> msgs)
  = if decide (k' = k) then pair k' <$> msgs else [].
Proof.
  induction msgs as [|m msgs IH].
  - by case_decide.
  - rewrite fmap_cons, filter_cons, IH. simpl. by repeat case_decide.
Qed.

Lemma shape_lookup_key (k : string) (t : ztype) (shape : list (string * ztype)) :
  shape_lookup k shape = Some t → k ∈ shape.*1.
Proof.
  induction shape as [|[k2 t2] shape IH]; [done|].
  cbn [shape_lookup fst snd]. rewrite fmap_cons. cbn [fst].
  destruct (decide (k2 = k)) as [->|]; [left|right; auto].
Qed.

(** With distinct keys, the issues of a key are those of its own type on
    its own value. *)
Lemma parse_object_lookup (shape : list (string * ztype))
    (data : gmap string jsvalue) (k : string) :
  NoDup shape.*1 →
  head (filter (λ i, i.1 = k) (parse_object emailRegex shape data)).*2
  = (t ← shape_lookup k shape; head (parse emailRegex t (get data k))).
Proof.
  induction shape as [|[k' t] shape IH]; intros Hnd; [done|].
  rewrite fmap_cons in Hnd. apply NoDup_cons in Hnd as [Hk' Hnd].
  specialize (IH Hnd). unfold parse_object in *.
  cbn [flat_map shape_lookup fst snd].
  rewrite filter_app, filter_issues_of_key, fmap_app.
  destruct (decide (k' = k)) as [->|Hk].
  - cbn [mbind option_bind].
    destruct (parse emailRegex t (get data k)) as [|m ms] eqn:Hp; [|done].
    rewrite fmap_nil, app_nil_l, IH.
    destruct (shape_lookup k shape) as [t2|] eqn:Hf; [|done].
    exfalso. apply Hk'. by eapply shape_lookup_key.
  - by rewrite fmap_nil, app_nil_l, IH.
Qed.

Lemma schema_keys_NoDup : NoDup schema.*1.
Proof. apply (bool_decide_unpack _). by vm_compute. Qed.

Lemma resolver_lookup (data : gmap string jsvalue) (k : string) :
  resolver emailRegex data !! k = field_error emailRegex k (get data k).
Proof.
  unfold resolver, field_error, shape_of.
  by rewrite parseErrorSchema_lookup, parse_object_lookup
    by apply schema_keys_NoDup.
Qed.

(** *** One field against its row of the table *)

Lemma head_omap_None {A B} (f : A → option B) (l : list A) :
  head (omap f l) = None ↔ Forall (λ x, f x = None) l.
Proof.
  induction l as [|x l IH]; cbn [omap list_omap].
  - split; [constructor|done].
  - destruct (f x) eqn:Hx.
    + split; [done|]. intros H. apply Forall_cons in H as [H _]. congruence.
    + rewrite IH. split; [by constructor|]. by intros [_ ?]%Forall_cons.
Qed.

Lemma run_check_None (c : check) (s : jsstring) :
  run_check emailRegex c s = None ↔
  match c with
  | Min n _ => (n ≤ length s)%nat
  | Max n _ => (length s ≤ n)%nat
  | Regex re _ => test re s = true
  | Email _ => emailRegex s = true
  end.
Proof.
  destruct c as [n m|n m|re m|m]; cbn [run_check].
  - case_bool_decide; split; (done || lia).
  - case_bool_decide; split; (done || lia).
  - destruct (test re s); split; done.
  - destruct (emailRegex s); split; done.
Qed.

Lemma nonempty_length (s : jsstring) : s ≠ [] ↔ (1 ≤ length s)%nat.
Proof. destruct s; cbn [length]; split; (done || lia). Qed.

Lemma test_whole_plus (class : N → bool) (s : jsstring) :
  test (Whole_plus class) s = true ↔
  (1 ≤ length s)%nat ∧ forallb class s = true.
Proof.
  cbn [test].
  by rewrite andb_true_iff, negb_true_iff, bool_decide_eq_false, nonempty_length.
Qed.

Lemma non_empty_true (also : jsstring → bool) (s : jsstring) :
  non_empty also (JString s) = true ↔ (1 ≤ length s)%nat ∧ also s = true.
Proof.
  cbn [non_empty].
  by rewrite andb_true_iff, negb_true_iff, bool_decide_eq_false, nonempty_length.
Qed.

Lemma parse_string_None (checks : list check) (s : jsstring) :
  head (parse emailRegex (ZString checks) (JString s)) = None ↔
  Forall (λ c, run_check emailRegex c s = None) checks.
Proof. apply head_omap_None. Qed.

Ltac unfold_schema :=
  unfold min, max, regex, email, optional, z_literal, z_string;
  cbn [add_check app].

Ltac string_field :=
  let v := fresh "v" in
  intros v; destruct v as [| |b|n|s|r];
  [done..| |done];
  rewrite parse_string_None, non_empty_true;
  repeat rewrite Forall_cons; rewrite Forall_nil;
  repeat rewrite run_check_None;
  unfold anything, re_letters, re_digits;
  try rewrite test_whole_plus;
  unfold letters_and_whitespace_only, digits_only, length_in.

(** The code's rule for a field and the table's row for it agree on every
    value. *)
Lemma field_error_passes (key : string) (v : jsvalue) :
  field_error emailRegex key v = None ↔ passes emailRegex key v = true.
Proof.
  unfold field_error, shape_of, passes.
  cbn [schema constraints shape_lookup passes_in fst snd].
  repeat (case_decide; [|]); cbn [mbind option_bind]; revert v.
  all: unfold_schema.
  all: try (string_field; tauto).
  - intros [| |b|n|s|r]; done.
  - string_field. rewrite andb_true_iff, bool_decide_eq_true. tauto.
  - intros v. cbn [parse]. unfold strict_eq, equals_true.
    case_bool_decide; done.
  - done.
Qed.

Lemma passes_outside (key : string) (v : jsvalue) :
  key ∉ fields → passes emailRegex key v = true.
Proof.
  intros Hout. unfold passes. cbn [constraints passes_in fst snd].
  repeat (case_decide;
          [exfalso; apply Hout; subst key;
           apply (bool_decide_unpack _); by vm_compute|]).
  done.
Qed.

Lemma passes_inside (key : string) (v : jsvalue) :
  passes emailRegex key v = false → key ∈ fields.
Proof.
  intros Hf. destruct (decide (key ∈ fields)) as [|Hout]; [done|].
  by rewrite passes_outside in Hf.
Qed.

Lemma submittable_iff (data : gmap string jsvalue) :
  submittable emailRegex data = true ↔
  ∀ key, key ∈ fields → passes emailRegex key (get data key) = true.
Proof.
  unfold submittable. rewrite bool_decide_eq_true. split.
  - intros He key _. apply field_error_passes.
    by rewrite <- resolver_lookup, He, lookup_empty.
  - intros Hall. apply map_eq. intros key.
    rewrite lookup_empty, resolver_lookup. apply field_error_passes.
    destruct (decide (key ∈ fields)); [auto|by apply passes_outside].
Qed.

Lemma field_error_message (key : string) (v : jsvalue) (message : string) :
  field_error emailRegex key v = Some message → message ≠ "".
Proof.
  unfold field_error, shape_of.
  cbn [schema shape_lookup fst snd].
  repeat (case_decide; [|]); cbn [mbind option_bind].
  all: unfold_schema.
  all: destruct v as [| |b|n|s|r]; cbn [parse omap list_omap run_check head invalid_type parsedType].
  all: try (intros [= <-]; done).
  all: unfold strict_eq.
  all: repeat (case_bool_decide || destruct (test _ _) || destruct (emailRegex _)).
  all: cbn [head].
  all: try (intros [= <-]; done).
Qed.

(** *** phoneNumber *)

Lemma phoneNumber_shape :
  shape_of "phoneNumber"
  = Some (ZString [Min 1 "Phone number is required";
                   Regex re_digits "Only numbers are allowed";
                   Min 10 "Phone number must be at least 10 digits";
                   Max 15 "Phone number must not exceed 15 digits"]).
Proof. reflexivity. Qed.

(** The first failing check of the chain, on a text. *)
Lemma phoneNumber_first_failure (s : jsstring) :
  field_error emailRegex "phoneNumber" (JString s)
  = if bool_decide (s = []) then Some "Phone number is required"
    else if negb (forallb is_digit s) then Some "Only numbers are allowed"
    else if bool_decide (length s < 10)%nat
         then Some "Phone number must be at least 10 digits"
    else if bool_decide (15 < length s)%nat
         then Some "Phone number must not exceed 15 digits"
    else None.
Proof.
  unfold field_error. rewrite phoneNumber_shape.
  cbn [mbind option_bind parse omap list_omap run_check test re_digits].
  destruct s as [|d s].
  - reflexivity.
  - rewrite (bool_decide_eq_false_2 (d :: s = [])) by done.
    rewrite (bool_decide_eq_false_2 (length (d :: s) < 1)%nat)
      by (cbn [length]; lia).
    cbn [negb andb].
    destruct (forallb is_digit (d :: s)); cbn [negb]; [|done].
    repeat case_bool_decide; (done || lia).
Qed.

(** The issues zod raises under one key are those of the key's own type on
    the key's own value, every one of them. *)
Lemma parse_object_issues (shape : list (string * ztype))
    (data : gmap string jsvalue) (k : string) (t : ztype) :
  NoDup shape.*1 → shape_lookup k shape = Some t →
  filter (λ i, i.1 = k) (parse_object emailRegex shape data)
  = pair k <$> parse emailRegex t (get data k).
Proof.
  induction shape as [|[k' t'] shape IH]; intros Hnd Hlook; [done|].
  rewrite fmap_cons in Hnd. apply NoDup_cons in Hnd as [Hk' Hnd].
  unfold parse_object in *. cbn [flat_map shape_lookup fst snd] in *.
  rewrite filter_app, filter_issues_of_key.
  destruct (decide (k' = k)) as [->|Hk].
  - injection Hlook as ->.
    assert (filter (λ i : string * string, i.1 = k)
              (flat_map (λ kt : string * ztype,
                 pair kt.1 <$> parse emailRegex kt.2 (get data kt.1)) shape)
            = []) as ->; [|by rewrite app_nil_r].
    clear IH Hnd. induction shape as [|[k2 t2] shape IH]; [done|].
    rewrite fmap_cons in Hk'. cbn [fst] in Hk'.
    apply not_elem_of_cons in Hk' as [Hne Hk'].
    cbn [flat_map fst snd].
    rewrite filter_app, filter_issues_of_key, decide_False by done.
    by rewrite IH.
  - by rewrite IH.
Qed.

Lemma get_Some (data : gmap string jsvalue) (k : string) (v : jsvalue) :
  data !! k = Some v → get data k = v.
Proof. unfold get. by intros ->. Qed.

(** C3. The validator passes a phoneNumber exactly when it is a text of
    digits only, 10 to 15 long.  On a text zod raises an issue for every
    check that fails, and the error object the resolver hands to the form
    holds the message of the first of them only, in the order: empty, not
    digits only, shorter than 10, longer than 15; so 9 digits get the
    at-least-10 message and 16 digits the not-exceed-15 one. *)
Theorem phoneNumber_passes_digits_of_length_10_to_15
    (data : gmap string jsvalue) :
  (resolver emailRegex data !! "phoneNumber" = None ↔
     ∃ s, data !! "phoneNumber" = Some (JString s)
          ∧ forallb is_digit s = true ∧ (10 ≤ length s ≤ 15)%nat)
  ∧ (∀ s, data !! "phoneNumber" = Some (JString s) →
       filter (λ i, i.1 = "phoneNumber") (parse_object emailRegex schema data)
       = pair "phoneNumber" <$>
           ((if bool_decide (s = [])
             then ["Phone number is required"] else [])
            ++ (if bool_decide (s = []) || negb (forallb is_digit s)
                then ["Only numbers are allowed"] else [])
            ++ (if bool_decide (length s < 10)%nat
                then ["Phone number must be at least 10 digits"] else [])
            ++ (if bool_decide (15 < length s)%nat
                then ["Phone number must not exceed 15 digits"] else []))%list
       ∧ resolver emailRegex data !! "phoneNumber"
         = if bool_decide (s = []) then Some "Phone number is required"
           else if negb (forallb is_digit s)
                then Some "Only numbers are allowed"
           else if bool_decide (length s < 10)%nat
                then Some "Phone number must be at least 10 digits"
           else if bool_decide (15 < length s)%nat
                then Some "Phone number must not exceed 15 digits"
           else None)
  ∧ (∀ s, data !! "phoneNumber" = Some (JString s) →
          forallb is_digit s = true → length s = 9%nat →
          resolver emailRegex data !! "phoneNumber"
          = Some "Phone number must be at least 10 digits")
  ∧ (∀ s, data !! "phoneNumber" = Some (JString s) →
          forallb is_digit s = true → length s = 16%nat →
          resolver emailRegex data !! "phoneNumber"
          = Some "Phone number must not exceed 15 digits").
Proof.
  split; [|split; [|split]].
  - rewrite resolver_lookup. unfold get. split.
    + destruct (data !! "phoneNumber") as [[| |b|n|s|r]|]; try done.
      cbn [default from_option id].
      rewrite phoneNumber_first_failure. intros Hnone. exists s.
      split; [done|]. case_bool_decide; [done|].
      destruct (forallb is_digit s); [|done]. cbn [negb] in Hnone.
      repeat case_bool_decide; try done. repeat split; lia.
    + intros (s & -> & Hd & Hlen). cbn [default from_option id].
      rewrite phoneNumber_first_failure, Hd.
      destruct s; [cbn [length] in Hlen; lia|].
      rewrite bool_decide_eq_false_2 by done. cbn [negb].
      rewrite !bool_decide_eq_false_2 by lia. done.
  - intros s Hs. split.
    + rewrite (parse_object_issues schema data "phoneNumber" _
                 schema_keys_NoDup phoneNumber_shape).
      rewrite (get_Some _ _ _ Hs). f_equal.
      cbn [parse omap list_omap run_check test re_digits].
      destruct s as [|d s]; [done|].
      rewrite (bool_decide_eq_false_2 (d :: s = [])) by done.
      rewrite (bool_decide_eq_false_2 (length (d :: s) < 1)%nat)
        by (cbn [length]; lia).
      cbn [negb andb orb app].
      destruct (forallb is_digit (d :: s)); cbn [negb];
        by repeat case_bool_decide.
    + by rewrite resolver_lookup, (get_Some _ _ _ Hs),
        phoneNumber_first_failure.
  - intros s Hs Hd Hlen.
    rewrite resolver_lookup, (get_Some _ _ _ Hs),
      phoneNumber_first_failure, Hd.
    destruct s; [done|]. rewrite bool_decide_eq_false_2 by done. cbn [negb].
    by rewrite bool_decide_eq_true_2 by lia.
  - intros s Hs Hd Hlen.
    rewrite resolver_lookup, (get_Some _ _ _ Hs),
      phoneNumber_first_failure, Hd.
    destruct s; [done|]. rewrite bool_decide_eq_false_2 by done. cbn [negb].
    rewrite bool_decide_eq_false_2 by lia.
    by rewrite bool_decide_eq_true_2 by lia.
Qed.

(** *** acceptTerms *)

(** C6. acceptTerms passes for the boolean [true] and nothing else; every
    other value, a missing one too, gets the one fixed message. *)
Theorem acceptTerms_passes_only_true :
  (∀ v, field_error emailRegex "acceptTerms" v
        = if bool_decide (v = JBool true) then None
          else Some "You must accept the terms")
  ∧ (∀ data, resolver emailRegex data !! "acceptTerms" = None ↔
             data !! "acceptTerms" = Some (JBool true))
  ∧ (∀ data, data !! "acceptTerms" ≠ Some (JBool true) →
             resolver emailRegex data !! "acceptTerms"
             = Some "You must accept the terms").
Proof.
  assert (∀ v, field_error emailRegex "acceptTerms" v
               = if bool_decide (v = JBool true) then None
                 else Some "You must accept the terms") as Hv.
  { intros v. unfold field_error.
    change (shape_of "acceptTerms")
      with (Some (ZLiteral (JBool true) "You must accept the terms")).
    cbn [mbind option_bind parse]. unfold strict_eq.
    by case_bool_decide. }
  split; [done|split].
  - intros data. rewrite resolver_lookup, Hv. unfold get.
    destruct (data !! "acceptTerms") as [v|]; cbn [default from_option id];
      case_bool_decide; split; intros ?; simplify_eq; done.
  - intros data Hne. rewrite resolver_lookup, Hv. unfold get.
    destruct (data !! "acceptTerms") as [v|]; cbn [default from_option id];
      case_bool_decide; simplify_eq; done.
Qed.

(** *** One field left empty *)

Lemma empty_text_fails (key : string) :
  key ∈ fields → key ≠ "additionalInfo" →
  passes emailRegex key (JString []) = false.
Proof.
  intros Hin Hne. unfold fields in Hin. cbn in Hin.
  repeat (apply elem_of_cons in Hin as [->|Hin]); try done.
  by apply elem_of_nil in Hin.
Qed.

(** A record that is valid but for one field, which is empty, gets an entry
    for that field and for no other; additionalInfo may be empty. *)
Lemma one_empty_field_one_error (data : gmap string jsvalue) (key : string) :
  key ∈ fields → key ≠ "additionalInfo" →
  (∀ k, k ∈ fields → k ≠ key → passes emailRegex k (get data k) = true) →
  ∀ k, is_Some (resolver emailRegex (<[key := JString []]> data) !! k)
       ↔ k = key.
Proof.
  intros Hin Hne Hrest k. rewrite resolver_lookup. unfold get.
  destruct (decide (k = key)) as [->|Hk].
  - rewrite lookup_insert_eq. cbn [default from_option id].
    split; [done|]. intros _. apply not_eq_None_Some. intros Hn.
    apply field_error_passes in Hn. by rewrite empty_text_fails in Hn.
  - rewrite lookup_insert_ne by done. split; [|done]. intros Hsome.
    assert (field_error emailRegex k (default JUndefined (data !! k)) = None)
      as Hn.
    { apply field_error_passes.
      destruct (decide (k ∈ fields)); [by apply Hrest|by apply passes_outside]. }
    rewrite Hn in Hsome. by destruct Hsome.
Qed.

End Validator.

(** ** The key filters and their timers *)

Section Timers.

Implicit Types (m : mapping) (c : Component) (q : list timer) (t : timer).

(** *** The queue *)

Lemma existsb_enqueue (P : timer → bool) t q :
  existsb P (enqueue t q) = P t || existsb P q.
Proof.
  induction q as [|u q IH]; cbn [enqueue existsb].
  - done.
  - destruct (due t <? due u)%N; cbn [existsb]; [done|].
    rewrite IH. by destruct (P t), (P u).
Qed.

Lemma existsb_filter {A} (P : A → bool) (Q : A → Prop)
    `{∀ x, Decision (Q x)} (l : list A) :
  existsb P (filter Q l) = existsb (λ x, bool_decide (Q x) && P x) l.
Proof.
  induction l as [|x l IH]; [done|].
  rewrite filter_cons. cbn [existsb]. rewrite <- IH.
  case_decide.
  - by rewrite bool_decide_eq_true_2.
  - by rewrite bool_decide_eq_false_2.
Qed.

(** *** What firing timers does to one entry *)

Lemma transient_run_callback m (f : string) (cb : callback) c :
  transient m (run_callback cb c) !! f
  = if bool_decide (cb = clear_of m f) then Some "" else transient m c !! f.
Proof.
  destruct m, cb as [g|g]; cbn [run_callback transient clear_of
    setNameErrors setNumericErrors nameErrors numericErrors];
    case_bool_decide; simplify_eq;
    by rewrite ?lookup_insert_eq, ?lookup_insert_ne by congruence.
Qed.

Lemma transient_fired m (f : string) (l : list timer) c :
  transient m (foldl (λ c t, run_callback (run t) c) c l) !! f
  = if existsb (λ t, bool_decide (run t = clear_of m f)) l
    then Some "" else transient m c !! f.
Proof.
  revert c. induction l as [|t l IH]; intros c; cbn [foldl existsb]; [done|].
  rewrite IH, transient_run_callback.
  destruct (existsb _ l); [by rewrite orb_true_r|].
  by rewrite orb_false_r.
Qed.

Lemma fired_frame (l : list timer) c :
  let c' := foldl (λ c t, run_callback (run t) c) c l in
  values c' = values c ∧ errors c' = errors c ∧ timers c' = timers c
  ∧ clock c' = clock c ∧ log c' = log c.
Proof.
  revert c. induction l as [|t l IH]; intros c; cbn [foldl]; [done|].
  destruct (IH (run_callback (run t) c)) as (-> & -> & -> & -> & ->).
  by destruct (run t).
Qed.

(** [advance] on each part of the state. *)
Lemma advance_transient m (f : string) (ms : N) c :
  transient m (advance ms c) !! f
  = if existsb (clears_by m f (clock c + ms)) (timers c)
    then Some "" else transient m c !! f.
Proof.
  unfold advance. rewrite transient_fired, existsb_filter.
  unfold clears_by. by destruct m.
Qed.

Lemma advance_frame (ms : N) c :
  values (advance ms c) = values c
  ∧ errors (advance ms c) = errors c
  ∧ timers (advance ms c)
    = filter (λ t, ¬ (due t ≤ clock c + ms)%N) (timers c)
  ∧ clock (advance ms c) = (clock c + ms)%N
  ∧ log (advance ms c) = log c.
Proof.
  unfold advance.
  destruct (fired_frame
    (filter (λ t, (due t ≤ clock c + ms)%N) (timers c))
    (set_clock (clock c + ms)
       (set_timers (filter (λ t, ¬ (due t ≤ clock c + ms)%N) (timers c)) c)))
    as (-> & -> & -> & -> & ->).
  done.
Qed.

(** *** What a rejection does *)

Lemma reject_frame m (f message : string) c :
  values (reject m f message c) = values c
  ∧ errors (reject m f message c) = errors c
  ∧ timers (reject m f message c)
    = enqueue {| due := clock c + 2000; run := clear_of m f |} (timers c)
  ∧ clock (reject m f message c) = clock c
  ∧ log (reject m f message c) = log c.
Proof. by destruct m. Qed.

Lemma reject_transient m (f g message : string) c :
  transient m (reject m f message c) !! g
  = if decide (f = g) then Some message else transient m c !! g.
Proof.
  destruct m; cbn [reject set_transient setTimeout set_timers transient
    setNameErrors setNumericErrors nameErrors numericErrors];
    case_decide; subst;
    by rewrite ?lookup_insert_eq, ?lookup_insert_ne by done.
Qed.

(** The entry of the rejected field, [ms] after the rejection: the message,
    until the first pending timer of the field fires, the new one or one
    left by an earlier rejection. *)
Lemma advance_reject_same m (f message : string) (ms : N) c :
  transient m (advance ms (reject m f message c)) !! f
  = if bool_decide (2000 ≤ ms)%N
       || existsb (clears_by m f (clock c + ms)) (timers c)
    then Some "" else Some message.
Proof.
  rewrite advance_transient.
  destruct (reject_frame m f message c) as (_ & _ & -> & -> & _).
  rewrite existsb_enqueue, reject_transient, decide_True by done.
  unfold clears_by at 1. cbn [due run].
  rewrite (bool_decide_eq_true_2 (clear_of m f = clear_of m f)) by done.
  rewrite andb_true_r.
  by rewrite (bool_decide_ext (clock c + 2000 ≤ clock c + ms)%N (2000 ≤ ms)%N)
    by lia.
Qed.

Lemma clear_of_inj m (f g : string) : clear_of m f = clear_of m g → f = g.
Proof. destruct m; cbn [clear_of]; intros; by simplify_eq. Qed.

(** The entry of any other field of the mapping, at any later time, is what
    it would be had the rejection not happened. *)
Lemma advance_reject_other m (f g message : string) (ms : N) c :
  f ≠ g →
  transient m (advance ms (reject m f message c)) !! g
  = transient m (advance ms c) !! g.
Proof.
  intros Hne. rewrite !advance_transient.
  destruct (reject_frame m f message c) as (_ & _ & -> & -> & _).
  rewrite existsb_enqueue, reject_transient, decide_False by done.
  unfold clears_by at 1. cbn [due run].
  rewrite (bool_decide_eq_false_2 (clear_of m f = clear_of m g)).
  - by rewrite andb_false_r.
  - by intros ?%clear_of_inj.
Qed.

(** *** The handlers, branch by branch *)

Lemma handleNameInput_cases (e : KeyboardEvent) (f : string) c :
  handleNameInput e f c
  = if test re_has_digit (key e)
    then (preventDefault e,
          reject NameErrors f "Numbers are not allowed in this field" c)
    else (e, c).
Proof. reflexivity. Qed.

Lemma handleNumericInput_cases (e : KeyboardEvent) (f : string) c :
  handleNumericInput e f c
  = if test re_has_digit (key e)
    then if bool_decide (10 ≤ length (target_value e))%nat
         then (preventDefault e,
               reject NumericErrors f "Maximum 10 digits allowed" c)
         else (e, c)
    else if bool_decide (key e = js "Backspace")
            || bool_decide (key e = js "Delete")
            || bool_decide (key e = js "Tab")
         then (e, c)
         else (preventDefault e,
               reject NumericErrors f "Only numbers are allowed in this field" c).
Proof.
  unfold handleNumericInput.
  destruct (test re_has_digit (key e)); cbn [negb andb]; [done|].
  by repeat case_bool_decide.
Qed.

(** A handler either lets the event and the component be, or prevents the
    event and does a [reject] with one of the three messages. *)
Lemma handle_cases m (e : KeyboardEvent) (f : string) c :
  handle m e f c = (e, c) ∨
  ∃ message, message ≠ "" ∧
    handle m e f c = (preventDefault e, reject m f message c).
Proof.
  destruct m; cbn [handle].
  - rewrite handleNameInput_cases.
    destruct (test _ _); [right|by left].
    eexists. split; [|reflexivity]. done.
  - rewrite handleNumericInput_cases.
    repeat case_match; try (by left);
      right; (eexists; split; [|reflexivity]); done.
Qed.

Lemma handle_rejected m (e : KeyboardEvent) (f : string) c :
  defaultPrevented e = false →
  rejected m e f c = true →
  ∃ message, message ≠ "" ∧
    handle m e f c = (preventDefault e, reject m f message c).
Proof.
  unfold rejected. intros He Hr.
  destruct (handle_cases m e f c) as [Hh|Hh]; [|done].
  rewrite Hh in Hr. cbn [fst] in Hr. congruence.
Qed.

(** C4, as stated, fails: two rejections on firstName 1000 ms apart, and
    1000 ms after the second the entry is empty again, cleared by the timer
    of the first. *)
Lemma countdown_does_not_restart : ¬ countdown_restarts.
Proof.
  intros Hclaim.
  pose (e := {| key := js "1"; target_value := js "";
                defaultPrevented := false |}).
  destruct (Hclaim NameErrors "firstName" e e mount 1000%N 1000%N)
    as (message & Hne & Hset); try reflexivity.
  vm_compute in Hset. congruence.
Qed.

(** *** A burst of rejections *)

(** Whether a key is rejected does not depend on the component or on the
    field. *)
Lemma rejected_any_state m (e : KeyboardEvent) (f g : string) c c' :
  rejected m e f c = rejected m e g c'.
Proof.
  unfold rejected. destruct m; cbn [handle].
  - rewrite !handleNameInput_cases. by destruct (test _ _).
  - rewrite !handleNumericInput_cases. by repeat case_match.
Qed.

(** The timers of a field that are due at [T], and those due before [T]. *)
Local Abbreviation due_at m f T :=
  (λ t, bool_decide (due t = T) && bool_decide (run t = clear_of m f)).
Local Abbreviation due_before m f T :=
  (λ t, bool_decide (due t < T)%N && bool_decide (run t = clear_of m f)).

Lemma clears_by_none m (f : string) (T now : N) q :
  existsb (due_before m f T) q = false → (now < T)%N →
  existsb (clears_by m f now) q = false.
Proof.
  intros Hnone Hnow. induction q as [|t q IH]; [done|].
  cbn [existsb] in *. apply orb_false_iff in Hnone as [Ht Hq].
  rewrite IH, orb_false_r by done. unfold clears_by.
  destruct (bool_decide (run t = clear_of m f)); [|by rewrite andb_false_r].
  rewrite andb_true_r in *. apply bool_decide_eq_false in Ht.
  apply bool_decide_eq_false_2. lia.
Qed.

Lemma clears_by_some m (f : string) (T now : N) q :
  existsb (due_at m f T) q = true → (T ≤ now)%N →
  existsb (clears_by m f now) q = true.
Proof.
  intros Hat Hnow. induction q as [|t q IH]; [done|].
  cbn [existsb] in *. apply orb_true_iff in Hat as [Ht|Hq].
  - apply andb_true_iff in Ht as [Hd Hr]. apply bool_decide_eq_true in Hd.
    unfold clears_by at 1. rewrite Hr, bool_decide_eq_true_2 by lia. done.
  - by rewrite IH, orb_true_r.
Qed.

(** The state in the middle of a burst: a message is set, the timer of the
    burst's first rejection is pending for [T], no timer of the field is due
    before it, and a new timer would be due no earlier. *)
Lemma burst_until_first_timer m (f : string) (T : N)
    (more : list (N * KeyboardEvent)) c (message : string) :
  message ≠ "" →
  transient m c !! f = Some message →
  existsb (due_at m f T) (timers c) = true →
  existsb (due_before m f T) (timers c) = false →
  (T ≤ clock c + 2000)%N →
  (clock c + span more < T)%N →
  Forall (λ ge, defaultPrevented ge.2 = false
                ∧ rejected m ge.2 f c = true) more →
  ∃ message', message' ≠ "" ∧ ∀ rest,
    transient m (advance rest (burst m f more c)) !! f
    = if bool_decide (clock c + span more + rest < T)%N
      then Some message' else Some "".
Proof.
  revert c message.
  induction more as [|[gap e] more IH];
    intros c message Hne Hset Hat Hnone Hlate Hspan Hrej.
  - change (span []) with 0%N in *. cbn [burst]. exists message. split; [done|].
    intros rest. rewrite advance_transient. case_bool_decide.
    + rewrite (clears_by_none m f T) by (done || lia). done.
    + rewrite (clears_by_some m f T) by (done || lia). done.
  - change (span ((gap, e) :: more)) with (gap + span more)%N in *.
    cbn [burst fst snd].
    apply Forall_cons in Hrej as [[He Hr] Hrej]. cbn [snd] in He, Hr.
    rewrite (rejected_any_state m e f f c (advance gap c)) in Hr.
    destruct (handle_rejected _ _ _ _ He Hr) as (msg & Hmsg & ->).
    cbn [snd].
    destruct (advance_frame gap c) as (_ & _ & Htimers & Hclock & _).
    destruct (reject_frame m f msg (advance gap c))
      as (_ & _ & Htimers' & Hclock' & _).
    destruct (IH (reject m f msg (advance gap c)) msg) as (msg' & Hne' & Hrest).
    + done.
    + by rewrite reject_transient, decide_True.
    + rewrite Htimers', Htimers, existsb_enqueue, existsb_filter.
      apply orb_true_iff. right. clear -Hat Hspan.
      induction (timers c) as [|t q IHq]; [done|]. cbn [existsb] in *.
      apply orb_true_iff in Hat as [Ht|Hq]; [|by rewrite IHq, orb_true_r].
      rewrite Ht. apply andb_true_iff in Ht as [Hd _].
      apply bool_decide_eq_true in Hd.
      by rewrite bool_decide_eq_true_2 by lia.
    + rewrite Htimers', Htimers, existsb_enqueue, existsb_filter.
      apply orb_false_iff. split.
      * cbn [due run]. rewrite Hclock.
        by rewrite bool_decide_eq_false_2 by lia.
      * clear -Hnone. induction (timers c) as [|t q IHq]; [done|].
        cbn [existsb] in *. apply orb_false_iff in Hnone as [Ht Hq].
        by rewrite Ht, IHq, andb_false_r.
    + rewrite Hclock', Hclock. lia.
    + rewrite Hclock', Hclock. lia.
    + eapply Forall_impl; [exact Hrej|]. intros [gap' e'] [? Hr'].
      split; [done|]. by rewrite <- Hr'; apply rejected_any_state.
    + exists msg'. split; [done|]. intros rest. rewrite Hrest.
      rewrite Hclock', Hclock.
      by rewrite (bool_decide_ext
        (clock c + gap + span more + rest < T)%N
        (clock c + (gap + span more) + rest < T)%N) by lia.
Qed.

(** A rejection on a field with no countdown pending, and any number of
    further rejections on it during the 2000 ms that follow: the field's
    transient error stays set until 2000 ms after the first rejection, and
    is empty from then on while no key is pressed. *)
Corollary first_countdown_ends_the_burst m (fieldName : string)
    (e1 : KeyboardEvent) (more : list (N * KeyboardEvent)) c :
  defaultPrevented e1 = false →
  rejected m e1 fieldName c = true →
  Forall (λ ge, defaultPrevented ge.2 = false
                ∧ rejected m ge.2 fieldName c = true) more →
  existsb (λ t, bool_decide (run t = clear_of m fieldName)) (timers c) = false →
  (span more < 2000)%N →
  ∃ message, message ≠ "" ∧ ∀ rest,
    transient m
      (advance rest
         (burst m fieldName more (handle m e1 fieldName c).2)) !! fieldName
    = if bool_decide (span more + rest < 2000)%N
      then Some message else Some "".
Proof.
  intros He1 Hr1 Hrej Hclean Hspan.
  destruct (handle_rejected _ _ _ _ He1 Hr1) as (msg1 & Hne1 & ->).
  cbn [snd].
  destruct (reject_frame m fieldName msg1 c) as (_ & _ & Htimers & Hclock & _).
  destruct (burst_until_first_timer m fieldName (clock c + 2000) more
              (reject m fieldName msg1 c) msg1) as (msg & Hne & Hrest).
  - done.
  - by rewrite reject_transient, decide_True.
  - rewrite Htimers, existsb_enqueue. cbn [due run].
    by rewrite !bool_decide_eq_true_2.
  - rewrite Htimers, existsb_enqueue. cbn [due run].
    rewrite bool_decide_eq_false_2 by lia. cbn [andb orb].
    clear -Hclean. induction (timers c) as [|t q IHq]; [done|].
    cbn [existsb] in *. apply orb_false_iff in Hclean as [Ht Hq].
    by rewrite Ht, IHq, andb_false_r.
  - rewrite Hclock. lia.
  - rewrite Hclock. lia.
  - eapply Forall_impl; [exact Hrej|]. intros [gap' e'] [? Hr'].
    split; [done|]. by rewrite <- Hr'; apply rejected_any_state.
  - exists msg. split; [done|]. intros rest. rewrite Hrest, Hclock.
    by rewrite (bool_decide_ext
      (clock c + span more + rest < clock c + 2000)%N
      (span more + rest < 2000)%N) by lia.
Qed.

(** *** A chain of rejections, however spaced *)

Lemma enqueue_Permutation t q : enqueue t q ≡ₚ t :: q.
Proof.
  induction q as [|u q IH]; cbn [enqueue]; [done|].
  destruct (due t <? due u)%N; [done|].
  rewrite IH. apply Permutation_swap.
Qed.

Lemma existsb_Permutation {A} (P : A → bool) (l k : list A) :
  l ≡ₚ k → existsb P l = existsb P k.
Proof.
  induction 1 as [|x l k _ IH|x y l|l k k' _ IH1 _ IH2]; cbn [existsb].
  - done.
  - by rewrite IH.
  - by destruct (P x), (P y).
  - by rewrite IH1.
Qed.

Lemma filter_filter_weaker {A} (P Q : A → Prop) `{∀ x, Decision (P x)}
    `{∀ x, Decision (Q x)} (l : list A) :
  (∀ x, P x → Q x) → filter P (filter Q l) = filter P l.
Proof.
  intros Himp. rewrite list_filter_filter. apply list_filter_iff.
  intros x. split; [by intros [? _]|auto].
Qed.

(** One link of a chain: the wait, then the rejected key. *)
Lemma chain_link m (f : string) (gap : N) (e : KeyboardEvent) c :
  defaultPrevented e = false →
  rejected m e f c = true →
  let c' := (handle m e f (advance gap c)).2 in
  clock c' = (clock c + gap)%N
  ∧ timers c'
    = enqueue {| due := clock c + gap + 2000; run := clear_of m f |}
        (filter (λ t, ¬ (due t ≤ clock c + gap)%N) (timers c))
  ∧ ∃ message, message ≠ "" ∧ transient m c' !! f = Some message.
Proof.
  intros He Hr c'. subst c'.
  rewrite (rejected_any_state m e f f c (advance gap c)) in Hr.
  destruct (handle_rejected _ _ _ _ He Hr) as (msg & Hne & ->). cbn [snd].
  destruct (reject_frame m f msg (advance gap c)) as (_ & _ & -> & -> & _).
  destruct (advance_frame gap c) as (_ & _ & -> & -> & _).
  repeat split. exists msg. split; [done|].
  by rewrite reject_transient, decide_True.
Qed.

Lemma burst_clock m (f : string) (chain : list (N * KeyboardEvent)) c :
  clock (burst m f chain c) = (clock c + span chain)%N.
Proof.
  revert c. induction chain as [|[gap e] chain IH]; intros c.
  - change (span []) with 0%N. cbn [burst]. lia.
  - change (span ((gap, e) :: chain)) with (gap + span chain)%N.
    cbn [burst fst snd]. rewrite IH.
    destruct (handle_cases m e f (advance gap c)) as [->|(msg & _ & ->)];
      cbn [snd].
    + destruct (advance_frame gap c) as (_ & _ & _ & -> & _). lia.
    + destruct (reject_frame m f msg (advance gap c)) as (_ & _ & _ & -> & _).
      destruct (advance_frame gap c) as (_ & _ & _ & -> & _). lia.
Qed.

(** The timers after a chain: those that were pending and those the chain
    set, less the ones that have come due. *)
Lemma burst_timers m (f : string) (chain : list (N * KeyboardEvent)) c :
  chain ≠ [] →
  Forall (λ ge, defaultPrevented ge.2 = false
                ∧ rejected m ge.2 f c = true) chain →
  timers (burst m f chain c)
  ≡ₚ filter (λ t, ¬ (due t ≤ clock c + span chain)%N)
       (timers c ++ countdowns m f (clock c) chain)%list.
Proof.
  revert c. induction chain as [|[gap e] chain IH]; intros c Hne Hrej; [done|].
  apply Forall_cons in Hrej as [[He Hr] Hrej]. cbn [snd] in He, Hr.
  change (span ((gap, e) :: chain)) with (gap + span chain)%N.
  cbn [burst countdowns fst snd].
  destruct (chain_link m f gap e c He Hr) as (Hclock & Htimers & _).
  set (c' := (handle m e f (advance gap c)).2) in *.
  set (new := {| due := clock c + gap + 2000; run := clear_of m f |}) in *.
  destruct chain as [|ge chain].
  - change (span []) with 0%N. cbn [burst countdowns].
    rewrite Htimers, enqueue_Permutation, N.add_0_r.
    rewrite filter_app, (filter_cons _ new), decide_True, filter_nil
      by (cbn [due new]; lia).
    apply Permutation_cons_append.
  - rewrite IH; [|done|].
    + rewrite Hclock, Htimers, N.add_assoc.
      rewrite !filter_app, enqueue_Permutation, filter_cons.
      rewrite filter_filter_weaker by (intros t; lia).
      rewrite (filter_cons _ new).
      destruct (decide _); [|done].
      apply Permutation_middle.
    + eapply Forall_impl; [exact Hrej|]. intros [gap' e'] [? Hr'].
      split; [done|]. by rewrite <- Hr'; apply rejected_any_state.
Qed.

Lemma burst_message m (f : string) (chain : list (N * KeyboardEvent)) c :
  chain ≠ [] →
  Forall (λ ge, defaultPrevented ge.2 = false
                ∧ rejected m ge.2 f c = true) chain →
  ∃ message, message ≠ "" ∧ transient m (burst m f chain c) !! f = Some message.
Proof.
  revert c. induction chain as [|[gap e] chain IH]; intros c Hne Hrej; [done|].
  apply Forall_cons in Hrej as [[He Hr] Hrej]. cbn [snd] in He, Hr.
  cbn [burst fst snd].
  destruct chain as [|ge chain].
  - cbn [burst]. by destruct (chain_link m f gap e c He Hr) as (_ & _ & ?).
  - apply IH; [done|].
    eapply Forall_impl; [exact Hrej|]. intros [gap' e'] [? Hr'].
    split; [done|]. by rewrite <- Hr'; apply rejected_any_state.
Qed.

Lemma countdowns_due m (f : string) (start : N)
    (chain : list (N * KeyboardEvent)) t :
  t ∈ countdowns m f start chain →
  run t = clear_of m f ∧ (start + 2000 ≤ due t ≤ start + span chain + 2000)%N.
Proof.
  revert start. induction chain as [|[gap e] chain IH]; intros start Hin.
  - by apply elem_of_nil in Hin.
  - change (span ((gap, e) :: chain)) with (gap + span chain)%N.
    cbn [countdowns fst] in Hin. apply elem_of_cons in Hin as [->|Hin].
    + cbn [due run]. split; [done|lia].
    + destruct (IH _ Hin) as [? ?]. split; [done|lia].
Qed.

(** C4, amended.  Every rejection sets the field's transient error and
    sets a timer of its own, due 2000 ms later, beside the pending ones,
    none of which it removes or moves.  So after a chain of rejections on
    one field, however spaced, the timers pending are those that were
    pending before and one for each rejection of the chain, less the ones
    that have come due; and the transient error, set by the last
    rejection, stays set until the first of the pending timers of the
    field is due, which is 2000 ms after the last rejection only when none
    is left from an earlier one, and is empty from then on while no key is
    pressed. *)
Theorem each_rejection_runs_its_own_countdown m (fieldName : string)
    (chain : list (N * KeyboardEvent)) c :
  chain ≠ [] →
  Forall (λ ge, defaultPrevented ge.2 = false
                ∧ rejected m ge.2 fieldName c = true) chain →
  let c' := burst m fieldName chain c in
  let now := (clock c + span chain)%N in
  let pending :=
    filter (λ t, ¬ (due t ≤ now)%N)
      (timers c ++ countdowns m fieldName (clock c) chain)%list in
  (∀ e c0, defaultPrevented e = false → rejected m e fieldName c0 = true →
     timers (handle m e fieldName c0).2
     = enqueue {| due := clock c0 + 2000; run := clear_of m fieldName |}
         (timers c0))
  ∧ clock c' = now
  ∧ timers c' ≡ₚ pending
  ∧ ∃ message, message ≠ ""
      ∧ transient m c' !! fieldName = Some message
      ∧ (∀ rest,
           transient m (advance rest c') !! fieldName
           = if existsb (clears_by m fieldName (now + rest)) pending
             then Some "" else Some message)
      ∧ (∀ t rest,
           t ∈ countdowns m fieldName (clock c) chain →
           (now < due t ≤ now + rest)%N →
           transient m (advance rest c') !! fieldName = Some "")
      ∧ (∀ rest, (2000 ≤ rest)%N →
           transient m (advance rest c') !! fieldName = Some "").
Proof.
  intros Hne Hrej c' now pending.
  assert (clock c' = now) as Hclock by apply burst_clock.
  assert (timers c' ≡ₚ pending) as Htimers by by apply burst_timers.
  destruct (burst_message m fieldName chain c Hne Hrej) as (msg & Hmsg & Hset).
  fold c' in Hset.
  assert (∀ rest,
    transient m (advance rest c') !! fieldName
    = if existsb (clears_by m fieldName (now + rest)) pending
      then Some "" else Some msg) as Hrest.
  { intros rest.
    by rewrite advance_transient, Hclock, Hset,
      (existsb_Permutation _ _ _ Htimers). }
  assert (∀ t rest,
    t ∈ countdowns m fieldName (clock c) chain →
    (now < due t ≤ now + rest)%N →
    transient m (advance rest c') !! fieldName = Some "") as Hcount.
  { intros t rest Hin Hdue. rewrite Hrest.
    assert (existsb (clears_by m fieldName (now + rest)) pending = true)
      as ->; [|done].
    apply existsb_exists. exists t. split.
    - apply list_elem_of_In. unfold pending.
      apply list_elem_of_filter. split; [lia|].
      apply elem_of_app. by right.
    - unfold clears_by. apply countdowns_due in Hin as [-> _].
      rewrite !bool_decide_eq_true_2 by (done || lia). done. }
  split; [|split; [done|split; [done|]]].
  - intros e c0 He Hr.
    destruct (handle_rejected _ _ _ _ He Hr) as (msg0 & _ & ->). cbn [snd].
    by destruct (reject_frame m fieldName msg0 c0) as (_ & _ & -> & _).
  - exists msg. repeat split; try done.
    intros rest Hlate.
    assert (∃ t, t ∈ countdowns m fieldName (clock c) chain
                 ∧ due t = (now + 2000)%N) as (t & Hin & Hdue).
    { clear -Hne. unfold now. clear now. revert c.
      induction chain as [|[gap e] chain IH]; intros c; [done|].
      change (span ((gap, e) :: chain)) with (gap + span chain)%N.
      cbn [countdowns fst]. destruct chain as [|ge chain].
      - eexists. split; [left|]. change (span []) with 0%N. cbn [due]. lia.
      - destruct (IH ltac:(done) (set_clock (clock c + gap) c))
          as (t & Hin & Hdue).
        cbn [clock set_clock] in *. exists t. split; [by right|].
        rewrite Hdue. lia. }
    apply (Hcount t); [done|lia].
Qed.

(** C9. Within one mapping, a keystroke on field X, rejected or not, and
    the clearing of X leave the entry of any other field Y as it was.  After
    a rejection on X, X's entry is empty 2000 ms later and from then on as
    long as no key is pressed, and Y's entry is at every moment what it
    would have been without the rejection on X. *)
Theorem transient_errors_are_kept_per_field m (X Y : string)
    (e : KeyboardEvent) c :
  X ≠ Y →
  defaultPrevented e = false →
  transient m (handle m e X c).2 !! Y = transient m c !! Y
  ∧ transient m (run_callback (clear_of m X) c) !! Y = transient m c !! Y
  ∧ (rejected m e X c = true →
     (∀ ms, (2000 ≤ ms)%N →
            transient m (advance ms (handle m e X c).2) !! X = Some "")
     ∧ (∀ ms, transient m (advance ms (handle m e X c).2) !! Y
              = transient m (advance ms c) !! Y)).
Proof.
  intros Hne He. split; [|split].
  - destruct (handle_cases m e X c) as [->|(msg & _ & ->)]; [done|].
    cbn [snd]. by rewrite reject_transient, decide_False.
  - rewrite transient_run_callback, bool_decide_eq_false_2; [done|].
    by intros ?%clear_of_inj.
  - intros Hr. destruct (handle_rejected _ _ _ _ He Hr) as (msg & _ & ->).
    cbn [snd]. split.
    + intros ms Hms. rewrite advance_reject_same.
      by rewrite bool_decide_eq_true_2.
    + intros ms. by apply advance_reject_other.
Qed.

End Timers.

(** ** The name fields *)

Section NameFields.

Implicit Types (c : Component) (e : KeyboardEvent).

Lemma onKeyPress_name (field : string) e c :
  field ∈ name_fields → onKeyPress field e c = handleNameInput e field c.
Proof.
  unfold name_fields, onKeyPress. intros Hin.
  repeat (apply elem_of_cons in Hin as [->|Hin]); [done..|].
  by apply elem_of_nil in Hin.
Qed.

Lemma onKeyPress_cases (field : string) e c :
  onKeyPress field e c = (e, c)
  ∧ (field ∈ name_fields → test re_has_digit (key e) = false)
  ∨ field ∈ name_fields ∧ test re_has_digit (key e) = true ∧
    onKeyPress field e c
    = (preventDefault e,
       reject NameErrors field "Numbers are not allowed in this field" c).
Proof.
  destruct (decide (field ∈ name_fields)) as [Hin|Hout].
  - rewrite onKeyPress_name, handleNameInput_cases by done.
    destruct (test _ _); [by right|by left].
  - left. split; [|done]. unfold onKeyPress, name_fields in *.
    repeat case_bool_decide; subst; (done || set_solver).
Qed.

Lemma is_digit_key_has_digit (k : jsstring) :
  is_digit_key k = true → test re_has_digit k = true.
Proof.
  destruct k as [|d [|d' k]]; cbn [is_digit_key]; try done.
  intros Hd. cbn [test re_has_digit existsb]. by rewrite Hd.
Qed.

Lemma existsb_false_Forall {A} (P : A → bool) (l : list A) :
  existsb P l = false ↔ Forall (λ x, P x = false) l.
Proof.
  induction l as [|x l IH]; cbn [existsb].
  - split; [constructor|done].
  - rewrite orb_false_iff, IH, Forall_cons. done.
Qed.

Lemma typed_text_no_digit (k : jsstring) :
  test re_has_digit k = false → existsb is_digit (typed_text k) = false.
Proof. unfold typed_text. by case_bool_decide. Qed.

Lemma insert_text_no_digit (value text : jsstring) (caret : nat) :
  existsb is_digit value = false → existsb is_digit text = false →
  existsb is_digit (insert_text value caret text) = false.
Proof.
  rewrite !existsb_false_Forall. intros Hv Ht. unfold insert_text.
  repeat apply Forall_app_2; [by apply Forall_take|done|by apply Forall_drop].
Qed.

Lemma value_of_set_values (field field' : string) (s : jsstring) c :
  value_of field (set_values (<[field' := JString s]> (values c)) c)
  = if decide (field' = field) then s else value_of field c.
Proof.
  unfold value_of. cbn [values set_values].
  case_decide; subst; by rewrite ?lookup_insert_eq, ?lookup_insert_ne by done.
Qed.

(** A key press keeps a text without digits without digits, in a name field. *)
Lemma keypress_no_digit (field field' : string) (k : jsstring) (caret : nat) c :
  field ∈ name_fields →
  existsb is_digit (value_of field c) = false →
  existsb is_digit (value_of field (keypress field' k caret c)) = false.
Proof.
  intros Hin Hc. unfold keypress.
  destruct (onKeyPress_cases field'
    {| key := k; target_value := value_of field' c;
       defaultPrevented := false |} c) as [[-> Ht]|(_ & _ & ->)].
  - cbn [defaultPrevented target_value key] in *. rewrite value_of_set_values.
    case_decide; [subst field'|done].
    apply insert_text_no_digit; [done|]. apply typed_text_no_digit. auto.
  - cbn [preventDefault defaultPrevented]. unfold value_of.
    by destruct (reject_frame NameErrors field'
      "Numbers are not allowed in this field" c) as (-> & _).
Qed.

Lemma run_actions_no_digit (field : string) (actions : list action) c :
  field ∈ name_fields →
  existsb is_digit (value_of field c) = false →
  existsb is_digit (value_of field (run_actions actions c)) = false.
Proof.
  intros Hin. unfold run_actions. revert c.
  induction actions as [|a actions IH]; intros c Hc; [done|].
  cbn [foldl]. apply IH. destruct a as [field' k caret|ms]; cbn [step].
  - by apply keypress_no_digit.
  - unfold value_of. by destruct (advance_frame ms c) as (-> & _).
Qed.

(** C5. In firstName and lastName a digit key press is prevented: the record
    keeps its value, the field's transient error becomes the fixed message,
    and the timer that clears it is set for 2000 ms later, when the entry is
    empty again.  So whatever is typed, from the mounted form on, the value
    of these fields holds no digit. *)
Theorem name_fields_hold_no_digit (field : string) :
  field ∈ name_fields →
  (∀ e c, is_digit_key (key e) = true →
     defaultPrevented (onKeyPress field e c).1 = true)
  ∧ (∀ k caret c, is_digit_key k = true →
       let c' := keypress field k caret c in
       values c' = values c
       ∧ nameErrors c' !! field = Some "Numbers are not allowed in this field"
       ∧ timers c'
         = enqueue {| due := clock c + 2000; run := ClearNameError field |}
             (timers c)
       ∧ nameErrors (advance 2000 c') !! field = Some "")
  ∧ (∀ actions,
       existsb is_digit (value_of field (run_actions actions mount)) = false).
Proof.
  intros Hin. split; [|split].
  - intros e c Hk. rewrite onKeyPress_name, handleNameInput_cases by done.
    by rewrite is_digit_key_has_digit.
  - intros k caret c Hk. unfold keypress.
    rewrite onKeyPress_name, handleNameInput_cases by done. cbn [key].
    rewrite is_digit_key_has_digit by done.
    cbn [preventDefault defaultPrevented].
    destruct (reject_frame NameErrors field
      "Numbers are not allowed in this field" c) as (-> & _ & -> & _).
    repeat split.
    + change nameErrors with (transient NameErrors).
      by rewrite reject_transient, decide_True.
    + change nameErrors with (transient NameErrors).
      by rewrite advance_reject_same, bool_decide_eq_true_2.
  - intros actions. apply run_actions_no_digit; [done|].
    unfold name_fields in Hin.
    repeat (apply elem_of_cons in Hin as [->|Hin]); [done..|].
    by apply elem_of_nil in Hin.
Qed.

End NameFields.

(** ** The numeric fields *)

Section NumericFields.

Implicit Types (c : Component) (e : KeyboardEvent).

Lemma onKeyDown_numeric (field : string) e c :
  field ∈ numeric_fields → onKeyDown field e c = handleNumericInput e field c.
Proof.
  unfold numeric_fields, onKeyDown. intros Hin.
  repeat (apply elem_of_cons in Hin as [->|Hin]); [done..|].
  by apply elem_of_nil in Hin.
Qed.

(** C10. On a digit key the cap looks at the length of the input's whole
    current value and at nothing else in it: the key is rejected, with the
    maximum message, exactly when that length is 10 or more; otherwise the
    handler does nothing. *)
Theorem digit_cap_counts_the_whole_value (field : string) e c :
  field ∈ numeric_fields →
  is_digit_key (key e) = true →
  defaultPrevented e = false →
  onKeyDown field e c
  = (if bool_decide (10 ≤ length (target_value e))%nat
     then (preventDefault e,
           reject NumericErrors field "Maximum 10 digits allowed" c)
     else (e, c))
  ∧ (defaultPrevented (onKeyDown field e c).1 = true ↔
     (10 ≤ length (target_value e))%nat)
  ∧ ((10 ≤ length (target_value e))%nat →
     numericErrors (onKeyDown field e c).2 !! field
     = Some "Maximum 10 digits allowed").
Proof.
  intros Hin Hk He.
  assert (onKeyDown field e c
          = (if bool_decide (10 ≤ length (target_value e))%nat
             then (preventDefault e,
                   reject NumericErrors field "Maximum 10 digits allowed" c)
             else (e, c))) as Heq.
  { rewrite onKeyDown_numeric, handleNumericInput_cases by done.
    by rewrite is_digit_key_has_digit. }
  rewrite Heq. split; [done|split].
  - case_bool_decide; cbn [fst preventDefault defaultPrevented];
      split; (done || congruence).
  - intros Hlen. rewrite bool_decide_eq_true_2 by done. cbn [snd].
    change numericErrors with (transient NumericErrors).
    by rewrite reject_transient, decide_True.
Qed.

(** What the first test of the handler does on a key with no digit in its
    name: all but Backspace, Delete and Tab are rejected. *)
Lemma numeric_filter_on_digit_free_keys (field : string) e c :
  field ∈ numeric_fields →
  test re_has_digit (key e) = false →
  key e ≠ js "Backspace" → key e ≠ js "Delete" → key e ≠ js "Tab" →
  onKeyDown field e c
  = (preventDefault e,
     reject NumericErrors field "Only numbers are allowed in this field" c).
Proof.
  intros Hin Ht Hb Hd Htab.
  rewrite onKeyDown_numeric, handleNumericInput_cases, Ht by done.
  by rewrite !bool_decide_eq_false_2 by done.
Qed.

(** C2, at the key F1.  F1 is no digit and none of the three editing keys,
    yet its name holds a digit, which is all the handler tests: in an empty
    zipCode the key is let through and no error is set, and in a zipCode of
    ten characters it is rejected as an eleventh digit. *)
Theorem numeric_filter_takes_F1_for_a_digit :
  let e := {| key := js "F1"; target_value := js "";
              defaultPrevented := false |} in
  let e10 := {| key := js "F1"; target_value := js "1234567890";
                defaultPrevented := false |} in
  is_digit_key (key e) = false
  ∧ key e ≠ js "Backspace" ∧ key e ≠ js "Delete" ∧ key e ≠ js "Tab"
  ∧ onKeyDown "zipCode" e mount = (e, mount)
  ∧ defaultPrevented (onKeyDown "zipCode" e10 mount).1 = true
  ∧ numericErrors (onKeyDown "zipCode" e10 mount).2 !! "zipCode"
    = Some "Maximum 10 digits allowed".
Proof. repeat split; done. Qed.

End NumericFields.

(** ** Submitting *)

Section Submitting.

Variable emailRegex : jsstring → bool.

Implicit Types (c : Component).

Lemma submittable_false (data : gmap string jsvalue) (key : string) :
  passes emailRegex key (get data key) = false →
  submittable emailRegex data = false.
Proof.
  intros Hf. apply not_true_is_false. intros Hs.
  rewrite submittable_iff in Hs.
  rewrite Hs in Hf; [done|]. by eapply passes_inside.
Qed.

(** C8. Submitting a record with a field that fails: the warning dialog,
    always the same one, is the only effect; no time passes, the record is
    as it was, and the form holds the resolver's errors. *)
Theorem invalid_submit_only_warns c (key : string) :
  passes emailRegex key (get (values c) key) = false →
  submit emailRegex c
  = (Return tt,
     emit (Swal warning_dialog)
       (set_errors (resolver emailRegex (values c)) c))
  ∧ (∀ c', submit emailRegex c = (Return tt, c') →
       values c' = values c
       ∧ log c' = (log c ++ [Swal warning_dialog])%list
       ∧ clock c' = clock c ∧ timers c' = timers c
       ∧ is_Some (errors c' !! key))
  ∧ text warning_dialog = "Please check all required fields".
Proof.
  intros Hf. pose proof (submittable_false _ _ Hf) as Hs.
  unfold submittable in Hs. apply bool_decide_eq_false in Hs.
  assert (submit emailRegex c
          = (Return tt,
             emit (Swal warning_dialog)
               (set_errors (resolver emailRegex (values c)) c))) as Heq.
  { unfold submit, handleSubmit. by rewrite bool_decide_eq_false_2. }
  split; [done|split; [|done]].
  intros c'. rewrite Heq. intros [= <-].
  cbn [values log clock timers errors emit set_errors]. repeat split.
  rewrite resolver_lookup. apply not_eq_None_Some. intros Hn.
  apply field_error_passes in Hn. congruence.
Qed.


End Submitting.

(** ** The theorems at work on concrete inputs *)


(** C3 on the sample record with a phoneNumber of nine digits, of sixteen
    digits, of ten digits, and of three letters. *)
Lemma phoneNumber_passes_digits_of_length_10_to_15_witness :
  let phone s := <["phoneNumber" := JString (js s)]> sample_record in
  resolver sample_emailRegex (phone "077123456") !! "phoneNumber"
  = Some "Phone number must be at least 10 digits"
  ∧ resolver sample_emailRegex (phone "0771234567890123") !! "phoneNumber"
    = Some "Phone number must not exceed 15 digits"
  ∧ resolver sample_emailRegex (phone "0771234567") !! "phoneNumber" = None
  ∧ filter (λ i, i.1 = "phoneNumber")
      (parse_object sample_emailRegex schema (phone "abc"))
    = [("phoneNumber", "Only numbers are allowed");
       ("phoneNumber", "Phone number must be at least 10 digits")]
  ∧ resolver sample_emailRegex (phone "abc") !! "phoneNumber"
    = Some "Only numbers are allowed".
Proof.
  intros phone.
  destruct (phoneNumber_passes_digits_of_length_10_to_15 sample_emailRegex
              (phone "077123456")) as (_ & _ & Hnine & _).
  destruct (phoneNumber_passes_digits_of_length_10_to_15 sample_emailRegex
              (phone "0771234567890123")) as (_ & _ & _ & Hsixteen).
  destruct (phoneNumber_passes_digits_of_length_10_to_15 sample_emailRegex
              (phone "0771234567")) as (Hpass & _).
  destruct (phoneNumber_passes_digits_of_length_10_to_15 sample_emailRegex
              (phone "abc")) as (_ & Hfirst & _).
  split; [|split; [|split; [|split]]].
  - apply (Hnine (js "077123456")); reflexivity.
  - apply (Hsixteen (js "0771234567890123")); reflexivity.
  - apply Hpass. exists (js "0771234567"). repeat split; try reflexivity.
    all: cbn; lia.
  - by destruct (Hfirst (js "abc") eq_refl) as [-> _].
  - by destruct (Hfirst (js "abc") eq_refl) as [_ ->].
Defined.

(** C6 on a record without the key, and on the text "true". *)
Lemma acceptTerms_passes_only_true_witness :
  resolver sample_emailRegex ∅ !! "acceptTerms"
  = Some "You must accept the terms"
  ∧ field_error sample_emailRegex "acceptTerms" (JString (js "true"))
    = Some "You must accept the terms".
Proof.
  destruct (acceptTerms_passes_only_true sample_emailRegex)
    as (Hv & _ & Hmissing).
  split.
  - apply Hmissing. by rewrite lookup_empty.
  - by rewrite Hv.
Defined.

(** C4, amended, on three digit keys pressed in firstName, at 0, 1500 and
    3000 ms: the timers of the second and of the third are pending, and
    the third message is gone after 500 ms, when the timer of the second
    is due. *)
Lemma each_rejection_runs_its_own_countdown_witness :
  let e := {| key := js "1"; target_value := js "";
              defaultPrevented := false |} in
  let c' :=
    burst NameErrors "firstName" [(0%N, e); (1500%N, e); (1500%N, e)] mount in
  timers c'
  ≡ₚ [{| due := 3500; run := ClearNameError "firstName" |};
      {| due := 5000; run := ClearNameError "firstName" |}]
  ∧ ∃ message, message ≠ ""
      ∧ nameErrors c' !! "firstName" = Some message
      ∧ nameErrors (advance 499 c') !! "firstName" = Some message
      ∧ nameErrors (advance 500 c') !! "firstName" = Some "".
Proof.
  intros e c'.
  destruct (each_rejection_runs_its_own_countdown NameErrors "firstName"
              [(0%N, e); (1500%N, e); (1500%N, e)] mount)
    as (_ & _ & Htimers & message & Hne & Hset & Hrest & _).
  - done.
  - repeat constructor.
  - split; [exact Htimers|].
    exists message. split; [done|]. split; [exact Hset|]. split.
    + exact (Hrest 499%N).
    + exact (Hrest 500%N).
Defined.

(** C9 on firstName and lastName. *)
Lemma transient_errors_are_kept_per_field_witness :
  let e := {| key := js "1"; target_value := js "";
              defaultPrevented := false |} in
  transient NameErrors (handle NameErrors e "firstName" mount).2 !! "lastName"
  = transient NameErrors mount !! "lastName"
  ∧ transient NameErrors
      (advance 2000 (handle NameErrors e "firstName" mount).2) !! "firstName"
    = Some "".
Proof.
  intros e.
  destruct (transient_errors_are_kept_per_field NameErrors
              "firstName" "lastName" e mount) as (Hset & _ & Hwait);
    [done|reflexivity|].
  split; [exact Hset|].
  destruct Hwait as [Hclear _]; [reflexivity|].
  apply Hclear. lia.
Defined.

(** C5 on firstName: scenario 3, A 1 b 2 typed in turn, leaves no digit. *)
Lemma name_fields_hold_no_digit_witness :
  existsb is_digit
    (value_of "firstName"
       (run_actions
          [Press "firstName" (js "A") 0; Press "firstName" (js "1") 1;
           Press "firstName" (js "b") 1; Press "firstName" (js "2") 2]
          mount))
  = false.
Proof.
  destruct (name_fields_hold_no_digit "firstName") as (_ & _ & Hinv).
  - apply (bool_decide_unpack _). by vm_compute.
  - apply Hinv.
Defined.

(** C10 on a phoneNumber holding ten letters: the digit is refused. *)
Lemma digit_cap_counts_the_whole_value_witness :
  let e := {| key := js "5"; target_value := js "abcdefghij";
              defaultPrevented := false |} in
  defaultPrevented (onKeyDown "phoneNumber" e mount).1 = true
  ∧ numericErrors (onKeyDown "phoneNumber" e mount).2 !! "phoneNumber"
    = Some "Maximum 10 digits allowed".
Proof.
  intros e.
  destruct (digit_cap_counts_the_whole_value "phoneNumber" e mount)
    as (_ & Hiff & Hmsg).
  - apply (bool_decide_unpack _). by vm_compute.
  - reflexivity.
  - reflexivity.
  - split.
    + apply Hiff. cbn. lia.
    + apply Hmsg. cbn. lia.
Defined.

(** C8 on the form as mounted, every field empty: scenario 2. *)
Lemma invalid_submit_only_warns_witness :
  submit sample_emailRegex mount
  = (Return tt,
     emit (Swal warning_dialog)
       (set_errors (resolver sample_emailRegex (values mount)) mount)).
Proof.
  destruct (invalid_submit_only_warns sample_emailRegex mount "title")
    as (Heq & _).
  - reflexivity.
  - exact Heq.
Defined.


(** ** The end-to-end scenarios *)

(** Scenario 1: the sample record is submitted; success, and the defaults. *)
Example scenario_valid_sample :
  ∃ c, submit sample_emailRegex (set_values sample_record mount)
       = (Return tt, c)
       ∧ log c = [Timeout 1000; Swal success_dialog]
       ∧ values c = defaultValues.
Proof. eexists. split; [reflexivity|]. split; by vm_compute. Qed.

(** Scenario 2: the empty form is submitted; the warning, no reset, and a
    message for every field but additionalInfo. *)
Example scenario_all_empty :
  ∃ c, submit sample_emailRegex mount = (Return tt, c)
       ∧ log c = [Swal warning_dialog]
       ∧ values c = values mount
       ∧ dom (errors c)
         = list_to_set (filter (λ k, k ≠ "additionalInfo") fields).
Proof.
  eexists. split; [reflexivity|]. repeat split.
Qed.

(** Scenario 3: A, 1, b, 2 typed into firstName; Ab is stored, the message
    shows, and 2000 ms later it is gone. *)
Example scenario_A1b2 :
  let typed :=
    run_actions
      [Press "firstName" (js "A") 0; Press "firstName" (js "1") 1;
       Press "firstName" (js "b") 1; Press "firstName" (js "2") 2] mount in
  value_of "firstName" typed = js "Ab"
  ∧ nameErrors typed !! "firstName"
    = Some "Numbers are not allowed in this field"
  ∧ nameErrors (advance 2000 typed) !! "firstName" = Some "".
Proof. repeat split; by vm_compute. Qed.

(** The timeline of two digits typed into firstName 1000 ms apart: the
    message is there 999 ms after the second, and gone 1000 ms after it. *)
Example two_rejections_timeline :
  let twice :=
    run_actions
      [Press "firstName" (js "1") 0; Wait 1000; Press "firstName" (js "2") 0]
      mount in
  nameErrors (advance 999 twice) !! "firstName"
  = Some "Numbers are not allowed in this field"
  ∧ nameErrors (advance 1000 twice) !! "firstName" = Some ""
  ∧ timers (advance 1000 twice)
    = [{| due := 3000; run := ClearNameError "firstName" |}].
Proof. repeat split; by vm_compute. Qed.
